(** * Verification of the torch_ucc bootstrap code

  Shallow embedding of [src/torch_ucc_comm.cpp] (the out-of-band
  allgather callbacks that UCC drives during context creation and the
  constructors of [CommUCX] and [CommUCC]) and of
  [src/torch_ucc_tracing.cpp] ([CommTraceLogger]).

  The three OOB callbacks talk to a shared [c10d::Store] and to the
  memory of the calling process.  They are embedded as programs of a
  small free monad over the store and memory operations; one
  interpreter runs a program sequentially against a store, another one
  interleaves the programs of all the peers of a team. *)

From Stdlib Require Import ZArith Lia Strings.Byte.
From stdpp Require Import base tactics option list gmap strings pretty fin_maps.

Local Open Scope Z_scope.

(** ** Machine integers *)

Module MachInt.

(** [size_t] and pointer arithmetic: 64-bit, unsigned, wraps. *)
Definition wrap64 (z : Z) : Z := z mod 2 ^ 64.

(** Conversion to [int] (32-bit, two's complement). *)
Definition to_int (z : Z) : Z := (z + 2 ^ 31) mod 2 ^ 32 - 2 ^ 31.

(** Conversion to [int64_t]. *)
Definition to_int64 (z : Z) : Z := (z + 2 ^ 63) mod 2 ^ 64 - 2 ^ 63.

End MachInt.

(** ** The key-value store

  Modelled from the spec: [c10d::Store] is an external collaborator
  (PyTorch), only its calls appear in src/.  The operations follow the
  contract table of the specification (set: upsert; get: fails if the
  key is absent; check: true iff every listed key exists; add: atomic
  fetch-and-add creating the key at 0, returns the post-add value;
  deleteKey: no-op if absent; wait: blocks until every listed key
  exists).  A value is either a byte vector written by [set] or a
  counter maintained by [add]; [add] on a byte vector throws, [get] on
  a counter yields its decimal digits. *)

Module Store.

Inductive sval : Type :=
| Bytes (b : list byte)
| Counter (n : Z).

Abbreviation store := (gmap string sval).

Definition sval_bytes (v : sval) : list byte :=
  match v with
  | Bytes b => b
  | Counter n => String.list_byte_of_string (pretty n)
  end.

Inductive storeOp : Type -> Type :=
| StoreSet (k : string) (v : list byte) : storeOp unit
| StoreGet (k : string) : storeOp (list byte)
| StoreCheck (ks : list string) : storeOp bool
| StoreAdd (k : string) (d : Z) : storeOp Z
| StoreDeleteKey (k : string) : storeOp bool
| StoreWait (ks : list string) : storeOp unit.

(** What the store answers to one operation. *)
Inductive reply (X : Type) : Type :=
| Val (x : X) (s : store)
| Throws
| Blocks.
Arguments Val {X} x s.
Arguments Throws {X}.
Arguments Blocks {X}.

Definition present (s : store) (k : string) : bool :=
  bool_decide (is_Some (s !! k)).

Definition store_exec {X} (op : storeOp X) (s : store) : reply X :=
  match op in storeOp T return reply T with
  | StoreSet k v => Val tt (<[k := Bytes v]> s)
  | StoreGet k =>
      match s !! k with
      | Some v => Val (sval_bytes v) s
      | None => Throws
      end
  | StoreCheck ks => Val (forallb (present s) ks) s
  | StoreAdd k d =>
      match s !! k with
      | None =>
          let n := MachInt.to_int64 (0 + d) in Val n (<[k := Counter n]> s)
      | Some (Counter c) =>
          let n := MachInt.to_int64 (c + d) in Val n (<[k := Counter n]> s)
      | Some (Bytes _) => Throws
      end
  | StoreDeleteKey k => Val (present s k) (delete k s)
  | StoreWait ks => if forallb (present s) ks then Val tt s else Blocks
  end.

(** Key [k] does not hold a byte vector (so [add] on it does not
    throw). *)
Definition not_bytes (s : store) (k : string) : Prop :=
  forall b, s !! k <> Some (Bytes b).

(** An operation as it appears in a trace of store traffic. *)
Inductive call : Type :=
| Call {X} (op : storeOp X).

End Store.
Export Store.

(** ** Process memory

  A flat byte-addressed memory; an address is mapped iff it belongs to
  a live object.  Reading or writing an unmapped address, or reading
  past the end of a [std::vector], is undefined behaviour ([None]). *)

Module Mem.

Abbreviation mem := (gmap Z byte).

Fixpoint mem_read (m : mem) (a : Z) (n : nat) : option (list byte) :=
  match n with
  | O => Some []
  | S n' =>
      match m !! a, mem_read m (a + 1) n' with
      | Some b, Some bs => Some (b :: bs)
      | _, _ => None
      end
  end.

Fixpoint mem_write (m : mem) (a : Z) (bs : list byte) : option mem :=
  match bs with
  | [] => Some m
  | b :: bs' =>
      match m !! a with
      | Some _ => mem_write (<[a := b]> m) (a + 1) bs'
      | None => None
      end
  end.

(** The [n] bytes from address [a] on belong to live objects. *)
Definition mapped (m : mem) (a n : Z) : Prop :=
  forall x, a <= x < a + n -> is_Some (m !! x).

Inductive memOp : Type -> Type :=
| MemRead (a n : Z) : memOp (list byte)
| MemCpy (dst : Z) (src : list byte) (n : Z) : memOp unit.

Definition mem_exec {X} (op : memOp X) (m : mem) : option (X * mem) :=
  match op in memOp T return option (T * mem) with
  | MemRead a n =>
      match mem_read m a (Z.to_nat n) with
      | Some bs => Some (bs, m)
      | None => None
      end
  | MemCpy dst src n =>
      if decide (Z.to_nat n <= length src)%nat then
        match mem_write m dst (take (Z.to_nat n) src) with
        | Some m' => Some (tt, m')
        | None => None
        end
      else None
  end.

End Mem.
Export Mem.

(** ** Programs over the store and the memory

  A program performs store operations (each of which may throw, hence
  the second continuation, taken when the operation raises a C++
  exception) and memory operations of its own process. *)

Module Prog.

Inductive prog (A : Type) : Type :=
| Ret (a : A)
| Raise
| StoreCall {X} (op : storeOp X) (k : X -> prog A) (exc : prog A)
| MemCall {X} (op : memOp X) (k : X -> prog A).
Arguments Ret {A} a.
Arguments Raise {A}.
Arguments StoreCall {A X} op k exc.
Arguments MemCall {A X} op k.

Fixpoint bind {A B} (p : prog A) (f : A -> prog B) : prog B :=
  match p with
  | Ret a => f a
  | Raise => Raise
  | StoreCall op k exc => StoreCall op (fun x => bind (k x) f) (bind exc f)
  | MemCall op k => MemCall op (fun x => bind (k x) f)
  end.

(** [try { p } catch (std::exception&) { h }] *)
Fixpoint try_catch {A} (p : prog A) (h : prog A) : prog A :=
  match p with
  | Ret a => Ret a
  | Raise => h
  | StoreCall op k exc =>
      StoreCall op (fun x => try_catch (k x) h) (try_catch exc h)
  | MemCall op k => MemCall op (fun x => try_catch (k x) h)
  end.

Definition store_call {X} (op : storeOp X) : prog X := StoreCall op Ret Raise.
Definition mem_call {X} (op : memOp X) : prog X := MemCall op Ret.

Declare Scope prog_scope.
Delimit Scope prog_scope with prog.
Notation "'let*' x ':=' c 'in' k" := (bind c (fun x => k))
  (at level 10, x name, c at level 100, k at level 200, only parsing)
  : prog_scope.

(** [for (r : rs) body(r);] *)
Fixpoint for_each (rs : list Z) (body : Z -> prog unit) : prog unit :=
  match rs with
  | [] => Ret tt
  | r :: rs' => bind (body r) (fun _ => for_each rs' body)
  end.

(** A [for] loop whose body may [return] from the enclosing function:
    [Some a] is that early return. *)
Fixpoint for_each_ret {A} (rs : list Z) (body : Z -> prog (option A))
  : prog (option A) :=
  match rs with
  | [] => Ret None
  | r :: rs' =>
      bind (body r) (fun x =>
        match x with
        | Some a => Ret (Some a)
        | None => for_each_ret rs' body
        end)
  end.

(** *** Sequential execution

    One process runs alone against the store.  [faults] says, for each
    store operation in turn, whether the store fails on it (the store
    is unreachable: the operation throws and has no effect); past the
    end of the list the store is healthy. *)

Record world : Type := World {
  w_store : store;
  w_mem : mem;
  w_faults : list bool;
  w_trace : list call
}.

Inductive outcome (A : Type) : Type :=
| Done (a : A)
| Uncaught
| Blocked
| Undefined.
Arguments Done {A} a.
Arguments Uncaught {A}.
Arguments Blocked {A}.
Arguments Undefined {A}.

Definition next_fault (fs : list bool) : bool * list bool :=
  match fs with
  | [] => (false, [])
  | f :: fs' => (f, fs')
  end.

Fixpoint run {A} (p : prog A) (w : world) : outcome A * world :=
  match p with
  | Ret a => (Done a, w)
  | Raise => (Uncaught, w)
  | StoreCall op k exc =>
      let (f, fs) := next_fault (w_faults w) in
      let tr := w_trace w ++ [Call op] in
      if f then run exc (World (w_store w) (w_mem w) fs tr)
      else
        match store_exec op (w_store w) with
        | Val x s => run (k x) (World s (w_mem w) fs tr)
        | Throws => run exc (World (w_store w) (w_mem w) fs tr)
        | Blocks => (Blocked, World (w_store w) (w_mem w) fs tr)
        end
  | MemCall op k =>
      match mem_exec op (w_mem w) with
      | Some (x, m) => run (k x) (World (w_store w) m (w_faults w) (w_trace w))
      | None => (Undefined, w)
      end
  end.

End Prog.
Export Prog.
Local Open Scope prog_scope.

(** ** The OOB allgather callbacks ([torch_ucc_comm.cpp]) *)

Inductive ucc_status_t : Type :=
| UCC_OK
| UCC_INPROGRESS
| UCC_ERR_NO_MESSAGE
| UCC_ERR_OTHER (code : Z).

#[global] Instance ucc_status_eq_dec : EqDecision ucc_status_t.
Proof. solve_decision. Defined.

(** [torch_ucc_oob_coll_info_t].  The structure is declared in
    [torch_ucc_comm.hpp], which is not among the sources; its fields
    here are the ones the callbacks read and write ([info->rank],
    [info->size], [info->rbuf], [info->msglen]).  The [store] field is
    the shared store of the interpreters, [rbuf] is an address. *)
Record torch_ucc_oob_coll_info_t : Type := CollInfo {
  rank : Z;
  size : Z;
  rbuf : Z;
  msglen : Z
}.

(** [std::to_string(int)] *)
Definition to_string (r : Z) : string := pretty r.

(** [for (int r = 0; r < n; r++)] *)
Definition ranks (n : Z) : list Z := seqZ 0 n.

Section OOB.

(** [info->getKey], a method of the structure (declared in
    [torch_ucc_comm.hpp], not among the sources): it maps a key name to
    the key of this team in the store.  It is a parameter here; the
    properties that need distinct keys assume it injective. *)
Variable getKey : string -> string.

(** The keys of a round: [info->getKey("teamr" + std::to_string(r))],
    [info->getKey("ag_done")] and
    [info->getKey("ag_free" + std::to_string(r))]. *)
Definition team_key (r : Z) : string := getKey ("teamr" +:+ to_string r).
Definition done_key : string := getKey "ag_done".
Definition free_key (r : Z) : string := getKey ("ag_free" +:+ to_string r).

(** [*req] is written only on success. *)
Definition oob_allgather (sbuf rbuf' msglen' : Z)
    (info : torch_ucc_oob_coll_info_t)
  : prog (ucc_status_t * torch_ucc_oob_coll_info_t
          * option torch_ucc_oob_coll_info_t) :=
  let* val := mem_call (MemRead sbuf msglen') in
  try_catch
    (let* _ :=
       store_call (StoreSet (team_key (rank info)) val)
     in
     let info' := CollInfo (rank info) (size info) rbuf' msglen' in
     Ret (UCC_OK, info', Some info'))
    (Ret (UCC_ERR_NO_MESSAGE, info, None)).

(** Body of the first loop of [oob_allgather_test]: [Some st] is the
    [return st] out of the function. *)
Definition check_body (r : Z) : prog (option ucc_status_t) :=
  let* b := store_call (StoreCheck [team_key r]) in
  if negb b then Ret (Some UCC_INPROGRESS) else Ret None.

(** Body of the second loop of [oob_allgather_test]. *)
Definition copy_body (info : torch_ucc_oob_coll_info_t) (r : Z) : prog unit :=
  let* data := store_call (StoreGet (team_key r)) in
  mem_call (MemCpy
    (MachInt.wrap64 (rbuf info + MachInt.wrap64 (msglen info * r)))
    data (msglen info)).

Definition oob_allgather_test (info : torch_ucc_oob_coll_info_t)
  : prog ucc_status_t :=
  try_catch
    (let* early := for_each_ret (ranks (size info)) check_body in
     match early with
     | Some st => Ret st
     | None =>
         let* _ := for_each (ranks (size info)) (copy_body info) in
         Ret UCC_OK
     end)
    (Ret UCC_ERR_NO_MESSAGE).

(** Bodies of the two loops of [oob_allgather_free]. *)
Definition delete_body (r : Z) : prog unit :=
  let* _ := store_call (StoreDeleteKey (team_key r)) in
  Ret tt.

Definition release_body (r : Z) : prog unit :=
  let* _ := store_call (StoreAdd (free_key r) 1) in
  Ret tt.

Definition oob_allgather_free (info : torch_ucc_oob_coll_info_t)
  : prog ucc_status_t :=
  try_catch
    (let* n := store_call (StoreAdd done_key 1) in
     let num_done := MachInt.to_int n in
     let* _ :=
       if decide (num_done = size info) then
         let* _ := store_call (StoreDeleteKey done_key) in
         let* _ := for_each (ranks (size info)) delete_body in
         for_each (ranks (size info)) release_body
       else
         store_call
           (StoreWait [free_key (rank info)]) in
     let* _ :=
       store_call
         (StoreDeleteKey (free_key (rank info))) in
     Ret UCC_OK)
    (Ret UCC_ERR_NO_MESSAGE).

(** The value of the completion counter ([add] reads an absent key
    as 0). *)
Definition done_count (s : store) : Z :=
  match s !! done_key with
  | Some (Counter c) => c
  | _ => 0
  end.

(** The store traffic of the loops, as it shows in a trace. *)
Definition check_call (r : Z) : call := Call (StoreCheck [team_key r]).
Definition get_call (r : Z) : call := Call (StoreGet (team_key r)).
Definition delete_call (r : Z) : call := Call (StoreDeleteKey (team_key r)).
Definition release_call (r : Z) : call := Call (StoreAdd (free_key r) 1).

End OOB.

(** *** One rendezvous round seen from the team

    A peer is a process: its request structure, its memory, and the
    addresses of the send and receive buffers that UCC hands to
    [oob_allgather]. *)

Record peer : Type := Peer {
  p_info : torch_ucc_oob_coll_info_t;
  p_mem : mem;
  p_sbuf : Z;
  p_rbuf : Z
}.

(** The request as [oob_allgather] leaves it on success. *)
Definition request_of (len : Z) (p : peer) : torch_ucc_oob_coll_info_t :=
  CollInfo (rank (p_info p)) (size (p_info p)) (p_rbuf p) len.

Section Round.

Variable getKey : string -> string.

(** Peer [p] calls [oob_allgather] on store [s] (healthy store). *)
Definition initiate (len : Z) (p : peer) (s : store) :=
  run (oob_allgather getKey (p_sbuf p) (p_rbuf p) len (p_info p))
      (World s (p_mem p) [] []).

(** The peers publish one after the other, in the order of the list. *)
Definition publish_round (len : Z) (order : list peer) (s : store) : store :=
  foldl (fun s p => w_store (snd (initiate len p s))) s order.

(** Peer [p] polls its request on store [s] (healthy store). *)
Definition poll (len : Z) (p : peer) (s : store) :=
  run (oob_allgather_test getKey (request_of len p)) (World s (p_mem p) [] []).

(** [n] successive polls of one request. *)
Fixpoint poll_repeat (n : nat) (info : torch_ucc_oob_coll_info_t) (w : world)
  : list (outcome ucc_status_t) * world :=
  match n with
  | O => ([], w)
  | S n' =>
      let (o, w') := run (oob_allgather_test getKey info) w in
      let (os, w'') := poll_repeat n' info w' in
      (o :: os, w'')
  end.

End Round.

(** *** The peers of a team running concurrently

    Every peer runs its program against the one shared store; a step of
    the team is one store or memory operation of one peer.  A store
    operation may always fail (the peer then continues in its handler);
    [wait] on a missing key gives no step. *)

Module Team.

Record thread : Type := Thread {
  th_prog : prog ucc_status_t;
  th_mem : mem
}.

Record config : Type := Config {
  c_store : store;
  c_pool : list thread
}.

Definition thread_steps (s : store) (t : thread) : list (store * thread) :=
  match th_prog t with
  | Ret _ => []
  | Raise => []
  | StoreCall op k exc =>
      (s, Thread exc (th_mem t)) ::
      match store_exec op s with
      | Val x s' => [(s', Thread (k x) (th_mem t))]
      | Throws => []
      | Blocks => []
      end
  | MemCall op k =>
      match mem_exec op (th_mem t) with
      | Some (x, m) => [(s, Thread (k x) m)]
      | None => []
      end
  end.

Inductive step : config -> config -> Prop :=
| step_thread (c : config) (i : nat) (t : thread) (s' : store) (t' : thread) :
    c_pool c !! i = Some t ->
    (s', t') ∈ thread_steps (c_store c) t ->
    step c (Config s' (<[i := t']> (c_pool c))).

(** A schedule names, for each step, the peer that moves and which of
    its possible steps it takes. *)
Fixpoint run_schedule (sched : list (nat * nat)) (c : config) : option config :=
  match sched with
  | [] => Some c
  | (i, j) :: sched' =>
      match c_pool c !! i with
      | Some t =>
          match thread_steps (c_store c) t !! j with
          | Some (s', t') => run_schedule sched' (Config s' (<[i := t']> (c_pool c)))
          | None => None
          end
      | None => None
      end
  end.

(** All the peers have returned [UCC_OK]. *)
Definition all_returned_ok (c : config) : Prop :=
  forall t, t ∈ c_pool c -> th_prog t = Ret UCC_OK.

(** *** The cleanup barrier of [oob_allgather_free], peer by peer

    The places where a peer can stand in [oob_allgather_free], the
    program that remains to be run from each place, and the invariant
    that the team keeps while its peers run the function. *)

Section Barrier.

Variable getKey : string -> string.

(** Where a peer stands in [oob_allgather_free]. *)
Inductive pc : Type :=
| PStart
| PWait
| PDelOwn
| PLast0
| PLast1 (x : Z) (rs : list Z)
| PLast2 (x : Z) (rs : list Z)
| PDone.

#[global] Instance pc_eq_dec : EqDecision pc.
Proof. solve_decision. Defined.

(** The [catch] block of [oob_allgather_free]. *)
Definition on_error : prog ucc_status_t := Ret UCC_ERR_NO_MESSAGE.

(** The end of the [try] block: the peer deletes its release key. *)
Definition free_tail (r : Z) : prog ucc_status_t :=
  bind (store_call (StoreDeleteKey (free_key getKey r))) (fun _ => Ret UCC_OK).

(** What the peer of rank [r], in a team of size [S], still has to run
    when it stands at [p]. *)
Definition code (r S : Z) (p : pc) : prog ucc_status_t :=
  match p with
  | PStart => oob_allgather_free getKey (CollInfo r S 0 0)
  | PWait =>
      try_catch
        (bind (store_call (StoreWait [free_key getKey r])) (fun _ => free_tail r))
        on_error
  | PDelOwn => try_catch (free_tail r) on_error
  | PLast0 =>
      try_catch
        (bind
           (bind (store_call (StoreDeleteKey (done_key getKey))) (fun _ =>
              bind (for_each (ranks S) (delete_body getKey)) (fun _ =>
                for_each (ranks S) (release_body getKey))))
           (fun _ => free_tail r))
        on_error
  | PLast1 x rs =>
      try_catch
        (bind
           (bind (for_each (x :: rs) (delete_body getKey)) (fun _ =>
              for_each (ranks S) (release_body getKey)))
           (fun _ => free_tail r))
        on_error
  | PLast2 x rs =>
      try_catch
        (bind (for_each (x :: rs) (release_body getKey)) (fun _ => free_tail r))
        on_error
  | PDone => Ret UCC_OK
  end.

(** Where the last peer stands when [rs] are the ranks whose release
    key it has still to set, and when [rs] are the ranks whose publish
    key it has still to delete. *)
Definition mk_last2 (rs : list Z) : pc :=
  match rs with
  | [] => PDelOwn
  | x :: rs' => PLast2 x rs'
  end.

Definition mk_last1 (S : Z) (rs : list Z) : pc :=
  match rs with
  | [] => mk_last2 (ranks S)
  | x :: rs' => PLast1 x rs'
  end.

(** The steps of a peer: the new store and where the peer stands then
    ([None]: it has returned [UCC_ERR_NO_MESSAGE]). *)
Definition pc_steps (r S : Z) (s : store) (p : pc) : list (store * option pc) :=
  match p with
  | PStart =>
      (s, None) ::
      match store_exec (StoreAdd (done_key getKey) 1) s with
      | Val n s' =>
          [(s', Some (if decide (MachInt.to_int n = S) then PLast0 else PWait))]
      | _ => []
      end
  | PWait =>
      (s, None) ::
      (if present s (free_key getKey r) then [(s, Some PDelOwn)] else [])
  | PDelOwn => [(s, None); (delete (free_key getKey r) s, Some PDone)]
  | PLast0 => [(s, None); (delete (done_key getKey) s, Some (mk_last1 S (ranks S)))]
  | PLast1 x rs =>
      [(s, None); (delete (team_key getKey x) s, Some (mk_last1 S rs))]
  | PLast2 x rs =>
      (s, None) ::
      match store_exec (StoreAdd (free_key getKey x) 1) s with
      | Val n s' => [(s', Some (mk_last2 rs))]
      | _ => []
      end
  | PDone => []
  end.

Definition code_opt (r S : Z) (o : option pc) : prog ucc_status_t :=
  match o with
  | Some p => code r S p
  | None => on_error
  end.

(** The size of the team. *)
Variable N : nat.

(** The number of peers waiting for their release key. *)
Definition count_wait (pcs : list pc) : nat :=
  length (filter (fun p => p = PWait) pcs).

(** The last peer, standing at [pl], has not yet deleted the publish
    key of rank [r]; it has not yet set the release key of rank [r]. *)
Definition team_pending (pl : pc) (r : Z) : bool :=
  match pl with
  | PLast0 => true
  | PLast1 x rs => bool_decide (r ∈ x :: rs)
  | _ => false
  end.

Definition free_pending (pl : pc) (r : Z) : bool :=
  match pl with
  | PLast0 => true
  | PLast1 _ _ => true
  | PLast2 x rs => bool_decide (r ∈ x :: rs)
  | _ => false
  end.

(** Places that only the last peer or a released peer can stand at. *)
Definition is_last (pl : pc) : Prop := pl <> PStart /\ pl <> PWait.

(** The ranks left to the last peer are the end of [0 .. N-1]. *)
Definition wf_last (pl : pc) : Prop :=
  match pl with
  | PLast1 x rs => (x :: rs) `suffix_of` ranks (Z.of_nat N)
  | PLast2 x rs => (x :: rs) `suffix_of` ranks (Z.of_nat N)
  | _ => True
  end.

(** Nobody has seen the counter reach the size of the team yet. *)
Record GoodA (s : store) (pcs : list pc) : Prop := {
  gA_pcs : forall i p, pcs !! i = Some p -> p = PStart \/ p = PWait;
  gA_count : (count_wait pcs < N)%nat;
  gA_done : done_count getKey s = Z.of_nat (count_wait pcs);
  gA_nb : not_bytes s (done_key getKey);
  gA_free : forall i, (i < N)%nat -> s !! free_key getKey (Z.of_nat i) = None
}.

(** Peer [l] was the last to arrive and stands at [pl]. *)
Record GoodB (s : store) (pcs : list pc) (l : nat) (pl : pc) : Prop := {
  gB_l : pcs !! l = Some pl;
  gB_last : is_last pl;
  gB_wf : wf_last pl;
  gB_others : forall i p, i <> l -> pcs !! i = Some p ->
    p = PWait
    \/ ((p = PDelOwn \/ p = PDone) /\ free_pending pl (Z.of_nat i) = false);
  gB_done : pl <> PLast0 -> s !! done_key getKey = None;
  gB_team : forall r, 0 <= r < (Z.of_nat N) -> team_pending pl r = false ->
    s !! team_key getKey r = None;
  gB_free : forall i p, pcs !! i = Some p ->
    (s !! free_key getKey (Z.of_nat i) = None
     <-> free_pending pl (Z.of_nat i) = true \/ p = PDone)
}.

(** The invariant on the store and the places of the [N] peers. *)
Definition Good (s : store) (pcs : list pc) : Prop :=
  length pcs = N /\ (GoodA s pcs \/ exists l pl, GoodB s pcs l pl).

(** The programs of the pool are those of the places [pcs]. *)
Definition abstracts (pool : list thread) (pcs : list pc) : Prop :=
  forall i, th_prog <$> pool !! i = code (Z.of_nat i) (Z.of_nat N) <$> pcs !! i.

(** The invariant of the team: either some peer has returned an error,
    or the peers stand at places that satisfy [Good]. *)
Definition Inv (c : config) : Prop :=
  (exists i t st,
     c_pool c !! i = Some t /\ th_prog t = Ret st /\ st <> UCC_OK)
  \/ (exists pcs, abstracts (c_pool c) pcs /\ Good (c_store c) pcs).

End Barrier.

End Team.

(** *** A team of three

    The example of the specification: three peers publish four bytes
    each.  Every process has its send buffer at address 0 and a receive
    buffer of twelve bytes at address 16; the keys of the team carry the
    prefix 0. *)

Module Samples.

Definition sample_getKey (k : string) : string := "0" +:+ k.

(** A memory holding the bytes [bs] from address [a] on. *)
Definition bytes_at (a : Z) (bs : list byte) : mem :=
  list_to_map (zip (seqZ a (Z.of_nat (length bs))) bs).

Definition sample_bufs : list (list byte) :=
  [ [x01; x02; x03; x04]; [x05; x06; x07; x08]; [x09; x0a; x0b; x0c] ].

Definition sample_peer (r : Z) (sbuf : list byte) : peer :=
  Peer (CollInfo r 3 0 0)
       (bytes_at 0 sbuf ∪ bytes_at 16 (replicate 12 x00))
       0 16.

Definition peer0 : peer := sample_peer 0 [x01; x02; x03; x04].
Definition peer1 : peer := sample_peer 1 [x05; x06; x07; x08].
Definition peer2 : peer := sample_peer 2 [x09; x0a; x0b; x0c].

Definition sample_team : list peer := [peer0; peer1; peer2].

(** A team of one whose peer has a one-byte send buffer at address 0
    and nothing mapped at address 100. *)
Definition solo_info : torch_ucc_oob_coll_info_t := CollInfo 0 1 0 0.
Definition solo_mem : mem := bytes_at 0 [x2a].

(** A team of two that has polled a round to completion and is about
    to release it. *)
Definition pair_pool : list Team.thread :=
  [ Team.Thread (oob_allgather_free sample_getKey (CollInfo 0 2 0 0)) ∅;
    Team.Thread (oob_allgather_free sample_getKey (CollInfo 1 2 0 0)) ∅ ].

Definition pair_store : store :=
  <[team_key sample_getKey 0 := Bytes [x01]]>
    (<[team_key sample_getKey 1 := Bytes [x02]]> ∅).

(** Peer 0 increments the counter; peer 1 increments it, finds itself
    last, cleans up and releases both peers; peer 0 wakes up and deletes
    its release key.  Step 1 of a peer is its store operation, step 0
    would be a failure of the store. *)
Definition pair_schedule : list (nat * nat) :=
  [ (0, 1); (1, 1); (1, 1); (1, 1); (1, 1); (1, 1); (1, 1); (1, 1);
    (0, 1); (0, 1) ]%nat.

Definition pair_final : Team.config :=
  default (Team.Config pair_store pair_pool)
    (Team.run_schedule pair_schedule (Team.Config pair_store pair_pool)).

End Samples.

(** ** Communicator construction ([CommUCX::CommUCX], [CommUCC::CommUCC])

    The UCX and UCC libraries are external.  A constructor is run
    against a description of what every library call answers; it yields
    the sequence of library calls it made and either the constructed
    object or the exception that left the constructor. *)

Module Lifecycle.

Inductive ucs_status_t : Type :=
| UCS_OK
| UCS_ERR (code : Z).

Inductive ucs_thread_mode_t : Type :=
| UCS_THREAD_MODE_SINGLE
| UCS_THREAD_MODE_SERIALIZED
| UCS_THREAD_MODE_MULTI.

Inductive ucc_thread_mode_t : Type :=
| UCC_THREAD_SINGLE
| UCC_THREAD_FUNNELED
| UCC_THREAD_MULTIPLE.

#[global] Instance ucs_status_eq_dec : EqDecision ucs_status_t.
Proof. solve_decision. Defined.
#[global] Instance ucs_thread_mode_eq_dec : EqDecision ucs_thread_mode_t.
Proof. solve_decision. Defined.
#[global] Instance ucc_thread_mode_eq_dec : EqDecision ucc_thread_mode_t.
Proof. solve_decision. Defined.

(** The library entry points the constructors call, and the error log. *)
Inductive api : Type :=
| ucp_lib_query
| ucp_config_read
| ucp_init
| ucp_config_release
| ucp_worker_create
| ucp_cleanup
| ucc_lib_config_read
| ucc_init
| ucc_lib_config_release
| ucc_lib_get_attr
| ucc_context_config_read
| ucc_context_config_modify
| ucc_context_config_release
| ucc_context_create
| ucc_finalize
| TORCH_UCC_LOG_ERROR.

#[global] Instance api_eq_dec : EqDecision api.
Proof. solve_decision. Defined.

(** What the constructors acquire from the libraries. *)
Inductive resource : Type :=
| UcpConfig
| UcpContext
| UcpWorker
| UccLibConfig
| UccLib
| UccContextConfig
| UccContext.

#[global] Instance resource_eq_dec : EqDecision resource.
Proof. solve_decision. Defined.

(** One library call in the trace; [ok] tells whether it returned the
    library's success status (calls returning [void] always do). *)
Record event : Type := Event { ev_api : api; ev_ok : bool }.

Definition acquires (e : event) : option resource :=
  if ev_ok e then
    match ev_api e with
    | ucp_config_read => Some UcpConfig
    | ucp_init => Some UcpContext
    | ucp_worker_create => Some UcpWorker
    | ucc_lib_config_read => Some UccLibConfig
    | ucc_init => Some UccLib
    | ucc_context_config_read => Some UccContextConfig
    | ucc_context_create => Some UccContext
    | _ => None
    end
  else None.

Definition releases (e : event) : option resource :=
  match ev_api e with
  | ucp_config_release => Some UcpConfig
  | ucp_cleanup => Some UcpContext
  | ucc_lib_config_release => Some UccLibConfig
  | ucc_context_config_release => Some UccContextConfig
  | ucc_finalize => Some UccLib
  | _ => None
  end.

(** The resources alive after a trace, in acquisition order. *)
Definition live_step (l : list resource) (e : event) : list resource :=
  match acquires e, releases e with
  | Some r, _ => l ++ [r]
  | None, Some r => filter (fun x => x <> r) l
  | None, None => l
  end.

Definition live (tr : list event) : list resource := foldl live_step [] tr.

(** The resources a trace acquired, in acquisition order. *)
Definition acquired (tr : list event) : list resource :=
  omap acquires tr.

(** The release calls of a trace, in the order they were issued. *)
Definition released (tr : list event) : list resource :=
  omap releases tr.

(** The library calls that read, change, release or use a context
    config, or create a context. *)
Definition context_api (a : api) : bool :=
  match a with
  | ucc_context_config_read => true
  | ucc_context_config_modify => true
  | ucc_context_config_release => true
  | ucc_context_create => true
  | _ => false
  end.

(** The teardown calls of a trace. *)
Definition teardown_calls (tr : list event) : list event :=
  filter (fun e => is_Some (releases e)) tr.

(** *** A monad for constructors: a trace and an exception *)

Inductive result (A : Type) : Type :=
| Built (a : A)
| Thrown (what : string).
Arguments Built {A} a.
Arguments Thrown {A} what.

Definition ctor (A : Type) : Type := list event -> list event * result A.

Definition cret {A} (a : A) : ctor A := fun tr => (tr, Built a).

Definition cbind {A B} (c : ctor A) (f : A -> ctor B) : ctor B :=
  fun tr =>
    match c tr with
    | (tr', Built a) => f a tr'
    | (tr', Thrown w) => (tr', Thrown w)
    end.

Definition throw {A} (what : string) : ctor A := fun tr => (tr, Thrown what).

Notation "'do*' x ':=' c 'in' k" := (cbind c (fun x => k))
  (at level 10, x name, c at level 100, k at level 200, only parsing).

(** A UCX library call returning a status. *)
Definition ucx_call (a : api) (st : ucs_status_t) : ctor ucs_status_t :=
  fun tr => (tr ++ [Event a (bool_decide (st = UCS_OK))], Built st).

(** A UCC library call returning a status. *)
Definition ucc_call (a : api) (st : ucc_status_t) : ctor ucc_status_t :=
  fun tr => (tr ++ [Event a (bool_decide (st = UCC_OK))], Built st).

(** A library call returning [void], or the error log. *)
Definition void_call (a : api) : ctor unit :=
  fun tr => (tr ++ [Event a true], Built tt).

(** [TORCH_CHECK(cond, msg)]: throws when [cond] is false. *)
Definition TORCH_CHECK (cond : bool) (msg : string) : ctor unit :=
  if cond then cret tt else throw msg.

(** Modelled from the spec: [TORCH_UCX_CHECK(st, msg)] and
    [TORCH_UCC_CHECK(st, msg)] are macros of [torch_ucc_comm.hpp], which
    is not among the sources.  As the construction steps of the
    specification say (a failing step fails the construction), they
    throw when the status is not the library's success status. *)
Definition TORCH_UCX_CHECK (st : ctor ucs_status_t) (msg : string) : ctor unit :=
  do* r := st in TORCH_CHECK (bool_decide (r = UCS_OK)) msg.

Definition TORCH_UCC_CHECK (st : ctor ucc_status_t) (msg : string) : ctor unit :=
  do* r := st in TORCH_CHECK (bool_decide (r = UCC_OK)) msg.

(** What the UCX library answers. *)
Record ucx_library : Type := UcxLibrary {
  ucp_lib_query_st : ucs_status_t;
  max_thread_level : ucs_thread_mode_t;
  ucp_config_read_st : ucs_status_t;
  ucp_init_st : ucs_status_t;
  ucp_worker_create_st : ucs_status_t
}.

(** What the UCC library answers. *)
Record ucc_library : Type := UccLibrary {
  ucc_lib_config_read_st : ucc_status_t;
  ucc_init_st : ucc_status_t;
  ucc_lib_get_attr_st : ucc_status_t;
  thread_mode : ucc_thread_mode_t;
  ucc_context_config_read_st : ucc_status_t;
  ucc_context_config_modify_st : ucc_status_t;
  ucc_context_create_st : ucc_status_t;
  ucc_finalize_st : ucc_status_t
}.

(** The handles a constructed communicator holds. *)
Definition communicator : Type := list resource.

Definition CommUCX (comm_size : Z) (L : ucx_library) : ctor communicator :=
  do* _ := TORCH_UCX_CHECK (ucx_call ucp_lib_query (ucp_lib_query_st L))
             "failed to query UCP lib attributes" in
  do* _ := TORCH_CHECK
             (bool_decide (max_thread_level L = UCS_THREAD_MODE_MULTI))
             "ucx library wasn't initialized with multithreading support, please check ucx build options" in
  do* _ := TORCH_UCX_CHECK (ucx_call ucp_config_read (ucp_config_read_st L))
             "failed to read UCP config" in
  do* _ := TORCH_UCX_CHECK (ucx_call ucp_init (ucp_init_st L))
             "failed to init UCP context" in
  do* _ := void_call ucp_config_release in
  do* st := ucx_call ucp_worker_create (ucp_worker_create_st L) in
  if bool_decide (st <> UCS_OK) then
    do* _ := void_call TORCH_UCC_LOG_ERROR in
    do* _ := void_call ucp_cleanup in
    throw "ucs_status_string(st)"
  else cret [UcpContext; UcpWorker].

Definition CommUCC (oob : torch_ucc_oob_coll_info_t) (L : ucc_library)
  : ctor communicator :=
  do* _ := TORCH_UCC_CHECK
             (ucc_call ucc_lib_config_read (ucc_lib_config_read_st L))
             "failed to read UCC lib config" in
  do* _ := TORCH_UCC_CHECK (ucc_call ucc_init (ucc_init_st L))
             "failed to init UCC lib" in
  do* _ := void_call ucc_lib_config_release in
  do* _ := TORCH_UCC_CHECK (ucc_call ucc_lib_get_attr (ucc_lib_get_attr_st L))
             "failed to query for lib attr" in
  do* _ := TORCH_CHECK (bool_decide (thread_mode L = UCC_THREAD_MULTIPLE))
             "ucc library wasn't initialized with multithreading support, please check ucc build options" in
  do* st := ucc_call ucc_context_config_read (ucc_context_config_read_st L) in
  if bool_decide (st <> UCC_OK) then
    do* _ := TORCH_UCC_CHECK (ucc_call ucc_finalize (ucc_finalize_st L))
               "failed to finalize UCC library when failing to read UCC context config" in
    do* _ := void_call TORCH_UCC_LOG_ERROR in
    throw "ucc_status_string(st)"
  else
  do* st := ucc_call ucc_context_config_modify
              (ucc_context_config_modify_st L) in
  if bool_decide (st <> UCC_OK) then
    do* _ := void_call ucc_context_config_release in
    do* _ := ucc_call ucc_finalize (ucc_finalize_st L) in
    do* _ := void_call TORCH_UCC_LOG_ERROR in
    throw "ucc_status_string(st)"
  else
  do* st := ucc_call ucc_context_create (ucc_context_create_st L) in
  do* _ := void_call ucc_context_config_release in
  if bool_decide (st <> UCC_OK) then
    do* _ := TORCH_UCC_CHECK (ucc_call ucc_finalize (ucc_finalize_st L))
               "failed to finalize UCC library when failing to creat UCC context" in
    do* _ := void_call TORCH_UCC_LOG_ERROR in
    throw "ucc_status_string(st)"
  else cret [UccLib; UccContext].

(** Libraries whose calls all succeed, except for the thread mode they
    report and the answers of the last creation step and of
    [ucc_finalize]. *)
Definition healthy_ucx (mode : ucs_thread_mode_t) (worker : ucs_status_t)
  : ucx_library :=
  UcxLibrary UCS_OK mode UCS_OK UCS_OK worker.

Definition healthy_ucc (mode : ucc_thread_mode_t) (create fin : ucc_status_t)
  : ucc_library :=
  UccLibrary UCC_OK UCC_OK UCC_OK mode UCC_OK UCC_OK create fin.

Definition sample_oob : torch_ucc_oob_coll_info_t := CollInfo 0 2 0 0.

End Lifecycle.

(** ** Communication tracing ([torch_ucc_tracing.cpp]) *)

Module Tracing.

(** Characters that the string literals of the source escape. *)
Definition nl : string := String (Ascii.ascii_of_nat 10) EmptyString.
Definition tab : string := String (Ascii.ascii_of_nat 9) EmptyString.
Definition dq : string := String (Ascii.ascii_of_nat 34) EmptyString.

(** [c10::str(a, b, ...)]: the arguments printed one after the other. *)
Definition str (pieces : list string) : string :=
  foldr String.app EmptyString pieces.

(** [c10::Join(delim, v)] on a vector of integers. *)
Fixpoint Join (delim : string) (v : list Z) : string :=
  match v with
  | [] => EmptyString
  | x :: v' =>
      match v' with
      | [] => pretty x
      | _ :: _ => pretty x +:+ delim +:+ Join delim v'
      end
  end.

Section Logger.

(** Types and printers of PyTorch: [at::ScalarType] with [at::kByte] and
    [at::toString], [c10::DeviceType] with [CPU] and
    [c10::DeviceTypeName], and the [operator<<] that prints a vector of
    strings. *)
Variable ScalarType : Type.
Variable kByte : ScalarType.
Variable toString : ScalarType -> string.
Variable DeviceType : Type.
Variable CPU : DeviceType.
Variable DeviceTypeName : DeviceType -> string.
Variable show_strings : list string -> string.

Record Tensor : Type := MkTensor {
  numel : Z;
  scalar_type : ScalarType;
  device_type : DeviceType
}.

(** The arguments of one [RECORD_PARAM_COMMS]. *)
Record param_comms : Type := ParamComms {
  pc_rank : Z;
  pc_comm : string;
  pc_in_size : Z;
  pc_out_size : Z;
  pc_dtype : ScalarType;
  pc_in_split : list Z;
  pc_out_split : list Z
}.

(** The members of [CommTraceLogger] that the source uses (the class is
    declared in [torch_ucc_tracing.hpp], not among the sources), the
    function-local static [startTS] of [recordComms] (unset until the
    first call), and the records handed to the profiler. *)
Record CommTraceLogger : Type := Logger {
  comms_trace_ : list string;
  curBlocks_ : list string;
  curOutSplitSizes_ : list Z;
  curInSplitSizes_ : list Z;
  curRoot_ : Z;
  seqnum : Z;
  startTS : option Z;
  kineto : list param_comms
}.

Definition recordOptionalInfo_root (root : Z) (t : CommTraceLogger)
  : CommTraceLogger :=
  Logger (comms_trace_ t) (curBlocks_ t) (curOutSplitSizes_ t)
         (curInSplitSizes_ t) root (seqnum t) (startTS t) (kineto t).

Definition recordOptionalInfo_splits (outputSplitSizes inputSplitSizes : list Z)
    (t : CommTraceLogger) : CommTraceLogger :=
  Logger (comms_trace_ t) (curBlocks_ t) outputSplitSizes inputSplitSizes
         (curRoot_ t) (seqnum t) (startTS t) (kineto t).

(** The value of the static [startTS] during a call made at [now]. *)
Definition startTS_at (now : Z) (t : CommTraceLogger) : Z :=
  match startTS t with
  | Some ts => ts
  | None => now
  end.

(** [now] is the reading of [std::chrono::system_clock::now()], in
    nanoseconds. *)
Definition recordComms (commName : string) (workReq : Z) (rank world_size : Z)
    (inputTensors outputTensors : list Tensor) (now : Z) (t : CommTraceLogger)
  : CommTraceLogger :=
  let inSize := match inputTensors with x :: _ => numel x | [] => 0 end in
  let outSize := match outputTensors with x :: _ => numel x | [] => 0 end in
  let dtype :=
    match outputTensors with x :: _ => scalar_type x | [] => kByte end in
  let devType :=
    match outputTensors with x :: _ => device_type x | [] => CPU end in
  let startTS' := startTS_at now t in
  let time_since_begin := now - startTS' in
  let cur_trace_ :=
    str [ nl +:+ tab +:+ tab +:+ dq +:+ "markers" +:+ dq +:+ ": [";
          show_strings (curBlocks_ t);
          "]";
          "," +:+ nl +:+ tab +:+ tab +:+ dq +:+ "startTime_ns" +:+ dq +:+ ": ";
          pretty time_since_begin;
          "," +:+ nl +:+ tab +:+ tab +:+ dq +:+ "comms" +:+ dq +:+ ": " +:+ dq;
          commName;
          dq;
          "," +:+ nl +:+ tab +:+ tab +:+ dq +:+ "req" +:+ dq +:+ ": ";
          pretty workReq;
          "," +:+ nl +:+ tab +:+ tab +:+ dq +:+ "seqnum" +:+ dq +:+ ": ";
          pretty (seqnum t);
          "," +:+ nl +:+ tab +:+ tab +:+ dq +:+ "world_size" +:+ dq +:+ ": ";
          pretty world_size ] in
  let cur_trace_ :=
    if (inSize >? 0) || (outSize >? 0) then
      str [ cur_trace_;
            "," +:+ nl +:+ tab +:+ tab +:+ dq +:+ "in_msg_size" +:+ dq +:+ ": ";
            pretty inSize;
            "," +:+ nl +:+ tab +:+ tab +:+ dq +:+ "out_msg_size" +:+ dq +:+ ": ";
            pretty outSize;
            "," +:+ nl +:+ tab +:+ tab +:+ dq +:+ "dtype" +:+ dq +:+ ": " +:+ dq;
            toString dtype;
            dq +:+ "," +:+ nl +:+ tab +:+ tab +:+ dq +:+ "devType" +:+ dq +:+ ": " +:+ dq;
            DeviceTypeName devType;
            dq ]
    else cur_trace_ in
  let cur_trace_ :=
    if bool_decide (curRoot_ t <> -1) then
      str [ cur_trace_;
            "," +:+ nl +:+ tab +:+ tab +:+ dq +:+ "root" +:+ dq +:+ ": ";
            pretty (curRoot_ t) ]
    else cur_trace_ in
  let cur_trace_ :=
    if (0 <? length (curInSplitSizes_ t))%nat
       || (0 <? length (curOutSplitSizes_ t))%nat then
      str [ cur_trace_;
            "," +:+ nl +:+ tab +:+ tab +:+ dq +:+ "in_split" +:+ dq +:+ ": [";
            Join "," (curInSplitSizes_ t);
            "]" +:+ "," +:+ nl +:+ tab +:+ tab +:+ dq +:+ "out_split" +:+ dq +:+ ": [";
            Join "," (curOutSplitSizes_ t);
            "]" ]
    else cur_trace_ in
  Logger
    (comms_trace_ t ++ [str [nl +:+ tab +:+ "{"; cur_trace_; nl +:+ tab +:+ "}"]])
    (curBlocks_ t)
    []
    []
    (-1)
    (seqnum t + 1)
    (Some startTS')
    (kineto t ++
       [ParamComms rank commName inSize outSize dtype
          (curInSplitSizes_ t) (curOutSplitSizes_ t)]).

(** The arguments of one [recordComms] call and the clock reading
    during it. *)
Record comms_call : Type := CommsCall {
  cc_commName : string;
  cc_workReq : Z;
  cc_rank : Z;
  cc_world_size : Z;
  cc_inputTensors : list Tensor;
  cc_outputTensors : list Tensor;
  cc_now : Z
}.

Definition recordComms_call (c : comms_call) (t : CommTraceLogger)
  : CommTraceLogger :=
  recordComms (cc_commName c) (cc_workReq c) (cc_rank c) (cc_world_size c)
    (cc_inputTensors c) (cc_outputTensors c) (cc_now c) t.

(** Successive [recordComms] calls with no [recordOptionalInfo] between
    them. *)
Definition recordComms_seq (cs : list comms_call) (t : CommTraceLogger)
  : CommTraceLogger :=
  foldl (fun t c => recordComms_call c t) t cs.

(** *** The record as a JSON object

    A trace record is one JSON object; [render] prints a list of fields
    (name and printed value) the way [recordComms] lays them out. *)

Definition field : Type := (string * string)%type.

Definition render_field (f : field) : string :=
  dq +:+ fst f +:+ dq +:+ ": " +:+ snd f.

Fixpoint render_fields (fs : list field) : string :=
  match fs with
  | [] => EmptyString
  | f :: fs' =>
      match fs' with
      | [] => render_field f
      | _ :: _ => render_field f +:+ "," +:+ nl +:+ tab +:+ tab +:+ render_fields fs'
      end
  end.

Definition render (fs : list field) : string :=
  nl +:+ tab +:+ "{" +:+ nl +:+ tab +:+ tab +:+ render_fields fs
     +:+ nl +:+ tab +:+ "}".

(** The fields of the record that [recordComms] emits. *)
Definition record_fields (commName : string) (workReq : Z) (world_size : Z)
    (inputTensors outputTensors : list Tensor) (now : Z) (t : CommTraceLogger)
  : list field :=
  let inSize := match inputTensors with x :: _ => numel x | [] => 0 end in
  let outSize := match outputTensors with x :: _ => numel x | [] => 0 end in
  let dtype :=
    match outputTensors with x :: _ => scalar_type x | [] => kByte end in
  let devType :=
    match outputTensors with x :: _ => device_type x | [] => CPU end in
  [ ("markers", "[" +:+ show_strings (curBlocks_ t) +:+ "]");
    ("startTime_ns", pretty (now - startTS_at now t));
    ("comms", dq +:+ commName +:+ dq);
    ("req", pretty workReq);
    ("seqnum", pretty (seqnum t));
    ("world_size", pretty world_size) ]
  ++ (if (inSize >? 0) || (outSize >? 0) then
        [ ("in_msg_size", pretty inSize);
          ("out_msg_size", pretty outSize);
          ("dtype", dq +:+ toString dtype +:+ dq);
          ("devType", dq +:+ DeviceTypeName devType +:+ dq) ]
      else [])
  ++ (if bool_decide (curRoot_ t <> -1) then
        [ ("root", pretty (curRoot_ t)) ]
      else [])
  ++ (if (0 <? length (curInSplitSizes_ t))%nat
         || (0 <? length (curOutSplitSizes_ t))%nat then
        [ ("in_split", "[" +:+ Join "," (curInSplitSizes_ t) +:+ "]");
          ("out_split", "[" +:+ Join "," (curOutSplitSizes_ t) +:+ "]") ]
      else []).

Definition call_fields (c : comms_call) (t : CommTraceLogger) : list field :=
  record_fields (cc_commName c) (cc_workReq c) (cc_world_size c)
    (cc_inputTensors c) (cc_outputTensors c) (cc_now c) t.

(** The fields of the records emitted by [recordComms_seq]. *)
Fixpoint seq_fields (cs : list comms_call) (t : CommTraceLogger)
  : list (list field) :=
  match cs with
  | [] => []
  | c :: cs' => call_fields c t :: seq_fields cs' (recordComms_call c t)
  end.

(** The value of a field of a record, if the record has that field. *)
Definition field_value (name : string) (fs : list field) : option string :=
  (fun p => snd (snd p)) <$> list_find (fun f => fst f = name) fs.

End Logger.

(** A record without any of the optional per-operation fields. *)
Definition no_optional_fields (fs : list field) : Prop :=
  field_value "root" fs = None
  /\ field_value "in_split" fs = None
  /\ field_value "out_split" fs = None.

(** A logger as the process starts: nothing recorded, no optional
    information pending, [startTS] not yet initialised. *)
Definition fresh_logger : CommTraceLogger unit :=
  Logger unit [] [] [] [] (-1) 0 None [].

Definition sample_call (now : Z) : comms_call unit unit :=
  CommsCall unit unit "allreduce" 1 0 2 [] [] now.

End Tracing.

(** * Properties *)

(** ** Machine integers *)

Module MachIntFacts.

Lemma wrap64_small z : 0 <= z < 2 ^ 64 -> MachInt.wrap64 z = z.
Proof. intros H. unfold MachInt.wrap64. by rewrite Z.mod_small. Qed.

Lemma to_int_small z : - 2 ^ 31 <= z < 2 ^ 31 -> MachInt.to_int z = z.
Proof. intros H. unfold MachInt.to_int. rewrite Z.mod_small; lia. Qed.

Lemma to_int64_small z : - 2 ^ 63 <= z < 2 ^ 63 -> MachInt.to_int64 z = z.
Proof. intros H. unfold MachInt.to_int64. rewrite Z.mod_small; lia. Qed.

End MachIntFacts.
Import MachIntFacts.

(** ** The OOB allgather callbacks *)

Module OOBFacts.

Section Facts.

Variable getKey : string -> string.

Lemma run_bind {A B} (p : prog A) (f : A -> prog B) w :
  run (bind p f) w =
  match run p w with
  | (Done a, w') => run (f a) w'
  | (Uncaught, w') => (Uncaught, w')
  | (Blocked, w') => (Blocked, w')
  | (Undefined, w') => (Undefined, w')
  end.
Proof.
  revert w. induction p as [a| |X op k IHk exc IHe|X op k IHk]; intros w; cbn [bind run].
  - done.
  - done.
  - destruct (next_fault (w_faults w)) as [[] fs]; [apply IHe|].
    destruct (store_exec op (w_store w)); [apply IHk|apply IHe|done].
  - destruct (mem_exec op (w_mem w)) as [[x m]|]; [apply IHk|done].
Qed.

Lemma run_try_catch {A} (p h : prog A) w :
  run (try_catch p h) w =
  match run p w with
  | (Uncaught, w') => run h w'
  | r => r
  end.
Proof.
  revert w. induction p as [a| |X op k IHk exc IHe|X op k IHk]; intros w; cbn [try_catch run].
  - done.
  - done.
  - destruct (next_fault (w_faults w)) as [[] fs]; [apply IHe|].
    destruct (store_exec op (w_store w)); [apply IHk|apply IHe|done].
  - destruct (mem_exec op (w_mem w)) as [[x m]|]; [apply IHk|done].
Qed.

Lemma present_true s k : present s k = true <-> is_Some (s !! k).
Proof. unfold present. by rewrite bool_decide_eq_true. Qed.

Lemma present_false s k : present s k = false <-> s !! k = None.
Proof.
  unfold present. rewrite bool_decide_eq_false. by rewrite eq_None_not_Some.
Qed.

(** Whatever the store does, the first loop changes neither the store
    nor the memory, and it runs to the end only if every key exists. *)
Lemma run_check_loop_frame rs w :
  let res := run (for_each_ret rs (check_body getKey)) w in
  w_store (snd res) = w_store w
  /\ w_mem (snd res) = w_mem w
  /\ ((fst res = Done None
       /\ Forall (fun r => is_Some (w_store w !! team_key getKey r)) rs)
      \/ fst res = Done (Some UCC_INPROGRESS)
      \/ fst res = Uncaught).
Proof.
  revert w. induction rs as [|r rs IH]; intros w; cbn [for_each_ret].
  - cbn. split_and!; try done. left. by split.
  - cbn [check_body store_call bind run].
    destruct (next_fault (w_faults w)) as [[] fs]; cbn [store_exec].
    + cbn. split_and!; try done. by right; right.
    + cbn [forallb]. rewrite andb_true_r.
      destruct (present (w_store w) (team_key getKey r)) eqn:Hp; cbn [negb].
      * specialize (IH (World (w_store w) (w_mem w) fs
                          (w_trace w ++ [Call (StoreCheck [team_key getKey r])]))).
        cbn [w_store w_mem] in IH. destruct IH as (Hs & Hm & Hres).
        split_and!; try done.
        destruct Hres as [[Hd Hall]|[?|?]]; [left|by right; left|by right; right].
        split; [done|]. constructor; [by apply present_true|done].
      * cbn. split_and!; try done. by right; left.
Qed.

Lemma run_check_loop_present rs s m tr :
  Forall (fun r => is_Some (s !! team_key getKey r)) rs ->
  run (for_each_ret rs (check_body getKey)) (World s m [] tr)
  = (Done None, World s m [] (tr ++ map (check_call getKey) rs)).
Proof.
  revert tr. induction rs as [|r rs IH]; intros tr Hall; cbn [for_each_ret map].
  - by rewrite app_nil_r.
  - apply Forall_cons in Hall as [Hr Hall].
    cbn [check_body store_call bind run w_faults next_fault store_exec
         w_store w_mem w_trace forallb].
    apply present_true in Hr. rewrite Hr. cbn [andb negb].
    rewrite IH by done. by rewrite <- app_assoc.
Qed.

Lemma run_check_loop_missing rs s m tr :
  Exists (fun r => s !! team_key getKey r = None) rs ->
  exists tr',
    run (for_each_ret rs (check_body getKey)) (World s m [] tr)
    = (Done (Some UCC_INPROGRESS), World s m [] tr').
Proof.
  revert tr. induction rs as [|r rs IH]; intros tr Hex.
  - by apply Exists_nil in Hex.
  - cbn [for_each_ret check_body store_call bind run w_faults next_fault
         store_exec w_store w_mem w_trace forallb].
    destruct (present s (team_key getKey r)) eqn:Hp; cbn [andb negb].
    + apply Exists_cons in Hex as [Hr|Hex].
      * apply present_false in Hr. congruence.
      * by apply IH.
    + by eexists.
Qed.

Lemma missing_key_exists info (s : store) r :
  0 <= r < size info ->
  s !! team_key getKey r = None ->
  Exists (fun r => s !! team_key getKey r = None) (ranks (size info)).
Proof.
  intros Hr Hk. apply Exists_exists. exists r. split; [|done].
  unfold ranks. apply elem_of_seqZ. lia.
Qed.

(** One poll while a publish key is missing, on a healthy store. *)
Lemma poll_missing_healthy info s m tr r :
  0 <= r < size info ->
  s !! team_key getKey r = None ->
  exists tr',
    run (oob_allgather_test getKey info) (World s m [] tr)
    = (Done UCC_INPROGRESS, World s m [] tr').
Proof.
  intros Hr Hk. unfold oob_allgather_test. rewrite run_try_catch, run_bind.
  destruct (run_check_loop_missing (ranks (size info)) s m tr) as [tr' ->].
  { by eapply missing_key_exists. }
  by eexists.
Qed.

(** One poll while a publish key is missing, whatever the store does. *)
Lemma poll_missing_frame info w r :
  0 <= r < size info ->
  w_store w !! team_key getKey r = None ->
  let res := run (oob_allgather_test getKey info) w in
  w_store (snd res) = w_store w
  /\ w_mem (snd res) = w_mem w
  /\ (fst res = Done UCC_INPROGRESS \/ fst res = Done UCC_ERR_NO_MESSAGE).
Proof.
  intros Hr Hk. unfold oob_allgather_test. rewrite run_try_catch, run_bind.
  pose proof (run_check_loop_frame (ranks (size info)) w) as H.
  cbn zeta in H. destruct (run _ w) as [o w']. cbn [fst snd] in H.
  destruct H as (Hs & Hm & [[-> Hall]|[->| ->]]); cbn.
  - exfalso. rewrite Forall_forall in Hall.
    destruct (Hall r) as [v Hv]; [|congruence].
    unfold ranks. apply elem_of_seqZ. lia.
  - split_and!; try done. by left.
  - split_and!; try done. by right.
Qed.

(** *** Memory *)

Lemma mem_write_mapped bs : forall (m : mem) a,
  (forall x, a <= x < a + Z.of_nat (length bs) -> is_Some (m !! x)) ->
  exists m',
    mem_write m a bs = Some m'
    /\ (forall x, a <= x < a + Z.of_nat (length bs) ->
          m' !! x = bs !! Z.to_nat (x - a))
    /\ (forall x, ~ (a <= x < a + Z.of_nat (length bs)) -> m' !! x = m !! x).
Proof.
  induction bs as [|b bs IH]; intros m a Hmap; cbn [mem_write length] in *.
  - exists m. split_and!; [done| |done]. intros x Hx. lia.
  - destruct (Hmap a) as [b0 Hb0]; [lia|]. rewrite Hb0.
    destruct (IH (<[a := b]> m) (a + 1)) as (m' & Hw & Hin & Hout).
    { intros x Hx. rewrite lookup_insert_ne by lia. apply Hmap. lia. }
    exists m'. split_and!; [done| |].
    + intros x Hx. destruct (decide (x = a)) as [->|Hne].
      * rewrite Hout by lia. rewrite lookup_insert_eq.
        by replace (a - a) with 0 by lia.
      * rewrite Hin by lia.
        replace (Z.to_nat (x - a)) with (S (Z.to_nat (x - (a + 1)))) by lia.
        done.
    + intros x Hx. rewrite Hout by lia. apply lookup_insert_ne. lia.
Qed.

Lemma mem_read_lookup n : forall (m : mem) a bs,
  length bs = n ->
  (forall x, a <= x < a + Z.of_nat n -> m !! x = bs !! Z.to_nat (x - a)) ->
  mem_read m a n = Some bs.
Proof.
  induction n as [|n IH]; intros m a bs Hlen Hbs; cbn [mem_read].
  - by destruct bs.
  - destruct bs as [|b bs]; [done|]. cbn [length] in Hlen.
    rewrite (Hbs a) by lia. replace (a - a) with 0 by lia. cbn.
    rewrite (IH m (a + 1) bs); [done|lia|].
    intros x Hx. rewrite Hbs by lia.
    by replace (Z.to_nat (x - a)) with (S (Z.to_nat (x - (a + 1)))) by lia.
Qed.

Lemma mem_read_mapped n : forall (m : mem) a bs,
  mem_read m a n = Some bs ->
  forall x, a <= x < a + Z.of_nat n -> is_Some (m !! x).
Proof.
  induction n as [|n IH]; intros m a bs Hrd x Hx; [lia|].
  cbn [mem_read] in Hrd.
  destruct (m !! a) as [b|] eqn:Ha; [|done].
  destruct (mem_read m (a + 1) n) as [bs'|] eqn:Hr; [|done].
  destruct (decide (x = a)) as [->|Hne]; [by rewrite Ha|].
  eapply IH; [done|lia].
Qed.

Lemma length_concat_uniform (bufs : list (list byte)) (n : nat) :
  Forall (fun b => length b = n) bufs ->
  length (concat bufs) = (length bufs * n)%nat.
Proof.
  induction 1 as [|b bufs Hb _ IH]; cbn [concat length]; [done|].
  rewrite length_app, IH, Hb. lia.
Qed.

(** *** The copy loop of [oob_allgather_test] *)

Lemma run_copy_loop info (s : store) bufs : forall k (m : mem) tr,
  0 <= msglen info -> 0 <= k -> 0 <= rbuf info ->
  rbuf info + msglen info * (k + Z.of_nat (length bufs)) < 2 ^ 64 ->
  (forall i b, bufs !! i = Some b ->
     length b = Z.to_nat (msglen info)
     /\ s !! team_key getKey (k + Z.of_nat i) = Some (Bytes b)) ->
  (forall x,
     rbuf info + msglen info * k <= x
       < rbuf info + msglen info * (k + Z.of_nat (length bufs)) ->
     is_Some (m !! x)) ->
  exists m',
    run (for_each (seqZ k (Z.of_nat (length bufs))) (copy_body getKey info))
        (World s m [] tr)
    = (Done tt,
       World s m' [] (tr ++ map (get_call getKey) (seqZ k (Z.of_nat (length bufs)))))
    /\ (forall x,
          rbuf info + msglen info * k <= x
            < rbuf info + msglen info * (k + Z.of_nat (length bufs)) ->
          m' !! x = concat bufs !! Z.to_nat (x - (rbuf info + msglen info * k)))
    /\ (forall x,
          ~ (rbuf info + msglen info * k <= x
               < rbuf info + msglen info * (k + Z.of_nat (length bufs))) ->
          m' !! x = m !! x).
Proof.
  induction bufs as [|b bufs IH]; intros k m tr HL Hk Hrb Hmax Hst Hmap.
  - cbn [length Z.of_nat]. rewrite seqZ_nil by lia. cbn.
    exists m. rewrite app_nil_r. split_and!; [done| |done].
    intros x Hx. cbn [length] in Hx. lia.
  - cbn [length] in *.
    rewrite seqZ_cons by lia.
    replace (Z.pred (Z.of_nat (S (length bufs)))) with (Z.of_nat (length bufs))
      by lia.
    replace (Z.succ k) with (k + 1) by lia.
    destruct (Hst 0%nat b eq_refl) as [Hlen Hkey].
    replace (k + Z.of_nat 0) with k in Hkey by lia.
    assert (Hmul : msglen info * k <= msglen info * (k + Z.of_nat (S (length bufs)))) by nia.
    assert (Hmul1 : msglen info * (k + 1) = msglen info * k + msglen info) by lia.
    destruct (mem_write_mapped b m (rbuf info + msglen info * k))
      as (m1 & Hw & Hin1 & Hout1).
    { intros x Hx. apply Hmap. rewrite Hlen in Hx. nia. }
    destruct (IH (k + 1) m1 (tr ++ [get_call getKey k])) as (m' & Hrun & Hin & Hout);
      [done|lia|done| | | |].
    { replace (k + 1 + Z.of_nat (length bufs))
        with (k + Z.of_nat (S (length bufs))) by lia. done. }
    { intros i b' Hb'. destruct (Hst (S i) b' Hb') as [? Hk']. split; [done|].
      by replace (k + 1 + Z.of_nat i) with (k + Z.of_nat (S i)) by lia. }
    { intros x Hx.
      destruct (decide (x < rbuf info + msglen info * k + Z.of_nat (length b)))
        as [Hlt|Hge].
      - rewrite Hin1 by nia. apply lookup_lt_is_Some. lia.
      - rewrite Hout1 by lia. apply Hmap. nia. }
    exists m'. split_and!.
    + cbn [for_each copy_body store_call mem_call bind run w_faults next_fault
           store_exec w_store w_mem w_trace].
      rewrite Hkey. cbn [sval_bytes mem_exec].
      rewrite decide_True by lia.
      rewrite take_ge by lia.
      rewrite (wrap64_small (msglen info * k)) by nia.
      rewrite wrap64_small by nia.
      rewrite Hw. cbn [bind].
      unfold get_call in Hrun at 1. rewrite Hrun. cbn [map].
      by rewrite <- app_assoc.
    + intros x Hx. cbn [concat].
      destruct (decide (x < rbuf info + msglen info * k + Z.of_nat (length b)))
        as [Hlt|Hge].
      * rewrite Hout by nia. rewrite Hin1 by lia.
        symmetry. apply lookup_app_l. lia.
      * rewrite Hin by nia. rewrite lookup_app_r by lia. f_equal. nia.
    + intros x Hx. rewrite Hout by nia. apply Hout1. nia.
Qed.

Lemma mem_read_length n : forall (m : mem) a bs,
  mem_read m a n = Some bs -> length bs = n.
Proof.
  induction n as [|n IH]; intros m a bs Hrd; cbn [mem_read] in Hrd.
  - by simplify_eq.
  - destruct (m !! a) as [b|]; [|done].
    destruct (mem_read m (a + 1) n) as [bs'|] eqn:Hr; [|done].
    simplify_eq. cbn. f_equal. by eapply IH.
Qed.

(** *** A complete poll *)

Lemma poll_complete info (s : store) (m : mem) tr bufs :
  0 <= msglen info -> 0 <= rbuf info ->
  rbuf info + msglen info * size info < 2 ^ 64 ->
  size info = Z.of_nat (length bufs) ->
  (forall i b, bufs !! i = Some b ->
     length b = Z.to_nat (msglen info)
     /\ s !! team_key getKey (Z.of_nat i) = Some (Bytes b)) ->
  (forall x, rbuf info <= x < rbuf info + msglen info * size info ->
     is_Some (m !! x)) ->
  exists m',
    run (oob_allgather_test getKey info) (World s m [] tr)
    = (Done UCC_OK,
       World s m' []
         (tr ++ map (check_call getKey) (ranks (size info))
             ++ map (get_call getKey) (ranks (size info))))
    /\ mem_read m' (rbuf info) (Z.to_nat (msglen info * size info))
       = Some (concat bufs)
    /\ (forall x,
          ~ (rbuf info <= x < rbuf info + msglen info * size info) ->
          m' !! x = m !! x).
Proof.
  intros HL Hrb Hmax Hsz Hst Hmap.
  unfold oob_allgather_test, ranks. rewrite Hsz in Hmax, Hmap. rewrite !Hsz.
  destruct (run_copy_loop info s bufs 0 m
              (tr ++ map (check_call getKey) (seqZ 0 (Z.of_nat (length bufs)))))
    as (m' & Hrun & Hin & Hout); [done|done|done| | | |].
  { by rewrite Z.add_0_l. }
  { intros i b Hb. rewrite Z.add_0_l. by apply Hst. }
  { intros x Hx. apply Hmap. lia. }
  exists m'. split_and!.
  - rewrite run_try_catch, run_bind.
    rewrite run_check_loop_present.
    2:{ apply Forall_forall. intros r Hr.
        apply elem_of_seqZ in Hr.
        destruct (lookup_lt_is_Some_2 bufs (Z.to_nat r)) as [b Hb]; [lia|].
        destruct (Hst _ _ Hb) as [_ Hk].
        rewrite Z2Nat.id in Hk by lia. by rewrite Hk. }
    rewrite run_bind, Hrun. cbn.
    by rewrite <- app_assoc.
  - apply mem_read_lookup.
    + rewrite (length_concat_uniform bufs (Z.to_nat (msglen info))).
      * nia.
      * apply Forall_forall. intros b Hb.
        apply list_elem_of_lookup in Hb as [i Hb]. by apply Hst in Hb as [? _].
    + intros x Hx. rewrite Hin.
      * f_equal. lia.
      * nia.
  - intros x Hx. apply Hout. lia.
Qed.

(** *** Publishing *)

Lemma run_oob_allgather_ok sbuf rb len info (s : store) (m : mem) tr val :
  mem_read m sbuf (Z.to_nat len) = Some val ->
  run (oob_allgather getKey sbuf rb len info) (World s m [] tr)
  = (Done (UCC_OK, CollInfo (rank info) (size info) rb len,
           Some (CollInfo (rank info) (size info) rb len)),
     World (<[team_key getKey (rank info) := Bytes val]> s) m []
       (tr ++ [Call (StoreSet (team_key getKey (rank info)) val)])).
Proof.
  intros Hrd. unfold oob_allgather.
  cbn [mem_call store_call bind try_catch run mem_exec w_mem].
  rewrite Hrd. reflexivity.
Qed.

Lemma run_oob_allgather_fault sbuf rb len info (s : store) (m : mem) fs tr val :
  mem_read m sbuf (Z.to_nat len) = Some val ->
  run (oob_allgather getKey sbuf rb len info) (World s m (true :: fs) tr)
  = (Done (UCC_ERR_NO_MESSAGE, info, None),
     World s m fs (tr ++ [Call (StoreSet (team_key getKey (rank info)) val)])).
Proof.
  intros Hrd. unfold oob_allgather.
  cbn [mem_call store_call bind try_catch run mem_exec w_mem].
  rewrite Hrd. reflexivity.
Qed.

Lemma initiate_store len p (s : store) :
  w_store (snd (initiate getKey len p s))
  = match mem_read (p_mem p) (p_sbuf p) (Z.to_nat len) with
    | Some val => <[team_key getKey (rank (p_info p)) := Bytes val]> s
    | None => s
    end.
Proof.
  unfold initiate.
  destruct (mem_read (p_mem p) (p_sbuf p) (Z.to_nat len)) as [val|] eqn:Hrd.
  - by erewrite run_oob_allgather_ok.
  - unfold oob_allgather.
    cbn [mem_call store_call bind try_catch run mem_exec w_mem].
    by rewrite Hrd.
Qed.

Lemma publish_round_cons len p order (s : store) :
  publish_round getKey len (p :: order) s
  = publish_round getKey len order (w_store (snd (initiate getKey len p s))).
Proof. reflexivity. Qed.

Lemma publish_round_other len order : forall (s : store) k,
  (forall p, p ∈ order -> team_key getKey (rank (p_info p)) <> k) ->
  publish_round getKey len order s !! k = s !! k.
Proof.
  induction order as [|q order IH]; intros s k Hk; [done|].
  rewrite publish_round_cons, IH.
  - rewrite initiate_store. destruct (mem_read _ _ _); [|done].
    apply lookup_insert_ne, Hk, list_elem_of_here.
  - intros p Hp. apply Hk. by apply list_elem_of_further.
Qed.

Section Injective.

Hypothesis getKey_inj : Inj (=) (=) getKey.

Lemma team_key_inj r r' : team_key getKey r = team_key getKey r' -> r = r'.
Proof.
  unfold team_key, to_string. intros H.
  apply getKey_inj in H. apply (inj (String.app "teamr")) in H.
  by apply (inj pretty) in H.
Qed.

Lemma free_key_inj r r' : free_key getKey r = free_key getKey r' -> r = r'.
Proof.
  unfold free_key, to_string. intros H.
  apply getKey_inj in H. apply (inj (String.app "ag_free")) in H.
  by apply (inj pretty) in H.
Qed.

Lemma team_key_ne_done r : team_key getKey r <> done_key getKey.
Proof. unfold team_key, done_key. intros H. apply getKey_inj in H. done. Qed.

Lemma free_key_ne_done r : free_key getKey r <> done_key getKey.
Proof.
  unfold free_key, done_key, to_string. intros H. apply getKey_inj in H.
  change ("ag_" +:+ ("free" +:+ pretty r) = "ag_" +:+ "done") in H.
  apply (inj (String.app "ag_")) in H. done.
Qed.

Lemma team_key_ne_free r r' : team_key getKey r <> free_key getKey r'.
Proof. unfold team_key, free_key. intros H. apply getKey_inj in H. done. Qed.

Lemma publish_round_lookup len order : forall (s : store) p val,
  NoDup (map (fun p => rank (p_info p)) order) ->
  p ∈ order ->
  mem_read (p_mem p) (p_sbuf p) (Z.to_nat len) = Some val ->
  publish_round getKey len order s !! team_key getKey (rank (p_info p))
  = Some (Bytes val).
Proof.
  induction order as [|q order IH]; intros s p val Hnd Hp Hrd.
  - by apply elem_of_nil in Hp.
  - cbn [map] in Hnd. apply NoDup_cons in Hnd as [Hq Hnd].
    rewrite publish_round_cons.
    destruct (decide (rank (p_info p) = rank (p_info q))) as [Heq|Hne].
    + rewrite publish_round_other.
      * rewrite initiate_store.
        apply elem_of_cons in Hp as [->|Hp].
        -- rewrite Hrd. apply lookup_insert_eq.
        -- exfalso. apply Hq. rewrite <- Heq.
           apply list_elem_of_fmap. by exists p.
      * intros p' Hp' Hk. apply team_key_inj in Hk.
        apply Hq. rewrite <- Heq, <- Hk. apply list_elem_of_fmap. by exists p'.
    + apply IH; [done| |done].
      apply elem_of_cons in Hp as [->|Hp]; [done|done].
Qed.

End Injective.

(** *** The loops of [oob_allgather_free] *)

Lemma run_delete_loop rs : forall (s : store) (m : mem) tr,
  run (for_each rs (delete_body getKey)) (World s m [] tr)
  = (Done tt,
     World (foldl (fun s r => delete (team_key getKey r) s) s rs) m []
       (tr ++ map (delete_call getKey) rs)).
Proof.
  induction rs as [|r rs IH]; intros s m tr; cbn [for_each foldl map].
  - by rewrite app_nil_r.
  - cbn [delete_body store_call bind run w_faults next_fault store_exec
         w_store w_mem w_trace].
    rewrite IH. unfold delete_call at 2. by rewrite <- app_assoc.
Qed.

Lemma not_bytes_insert_counter (s : store) k k' n :
  not_bytes s k -> not_bytes (<[k' := Counter n]> s) k.
Proof.
  intros H b. destruct (decide (k' = k)) as [->|Hne].
  - by rewrite lookup_insert_eq.
  - rewrite lookup_insert_ne by done. apply H.
Qed.

Lemma not_bytes_delete (s : store) k k' :
  not_bytes s k -> not_bytes (delete k' s) k.
Proof.
  intros H b. destruct (decide (k' = k)) as [->|Hne].
  - by rewrite lookup_delete_eq.
  - rewrite lookup_delete_ne by done. apply H.
Qed.

Lemma store_add_not_bytes (s : store) k d :
  not_bytes s k ->
  exists n, store_exec (StoreAdd k d) s = Val n (<[k := Counter n]> s).
Proof.
  intros H. cbn [store_exec]. destruct (s !! k) as [[b|c]|] eqn:Hk.
  - by destruct (H b).
  - by eexists.
  - by eexists.
Qed.

Lemma run_release_loop rs : forall (s : store) (m : mem) tr,
  (forall r, r ∈ rs -> not_bytes s (free_key getKey r)) ->
  exists s',
    run (for_each rs (release_body getKey)) (World s m [] tr)
    = (Done tt, World s' m [] (tr ++ map (release_call getKey) rs))
    /\ (forall r, r ∈ rs -> is_Some (s' !! free_key getKey r))
    /\ (forall k, k ∉ free_key getKey <$> rs -> s' !! k = s !! k)
    /\ (forall k, not_bytes s k -> not_bytes s' k).
Proof.
  induction rs as [|r rs IH]; intros s m tr Hnb; cbn [for_each map].
  - exists s. rewrite app_nil_r. split_and!; try done.
    intros r Hr. by apply elem_of_nil in Hr.
  - destruct (store_add_not_bytes s (free_key getKey r) 1) as [n Hn].
    { apply Hnb, list_elem_of_here. }
    destruct (IH (<[free_key getKey r := Counter n]> s) m
                (tr ++ [release_call getKey r])) as (s' & Hrun & Hin & Hout & Hnb').
    { intros r' Hr'. apply not_bytes_insert_counter, Hnb.
      by apply list_elem_of_further. }
    exists s'. split_and!.
    + cbn [release_body store_call bind run w_faults next_fault
           w_store w_mem w_trace].
      rewrite Hn. cbn [bind]. unfold release_call in Hrun at 1.
      rewrite Hrun. by rewrite <- app_assoc.
    + intros r' Hr'. apply elem_of_cons in Hr' as [->|Hr']; [|by apply Hin].
      destruct (decide (free_key getKey r ∈ free_key getKey <$> rs)) as [Hd|Hd].
      * apply list_elem_of_fmap in Hd as (r'' & -> & Hr''). by apply Hin.
      * rewrite Hout by done. rewrite lookup_insert_eq. by eexists.
    + intros k Hk. rewrite fmap_cons in Hk. apply not_elem_of_cons in Hk as [? ?].
      rewrite Hout by done. by apply lookup_insert_ne.
    + intros k Hk. by apply Hnb', not_bytes_insert_counter.
Qed.

Lemma store_add_done (s : store) :
  not_bytes s (done_key getKey) ->
  store_exec (StoreAdd (done_key getKey) 1) s
  = Val (MachInt.to_int64 (done_count getKey s + 1))
        (<[done_key getKey := Counter (MachInt.to_int64 (done_count getKey s + 1))]> s).
Proof.
  intros H. unfold done_count. cbn [store_exec].
  destruct (s !! done_key getKey) as [[b|c]|] eqn:Hk; [by destruct (H b)|done|done].
Qed.

Lemma run_store_call {X} (op : storeOp X) (s : store) (m : mem) tr :
  run (store_call op) (World s m [] tr)
  = match store_exec op s with
    | Val x s' => (Done x, World s' m [] (tr ++ [Call op]))
    | Throws => (Uncaught, World s m [] (tr ++ [Call op]))
    | Blocks => (Blocked, World s m [] (tr ++ [Call op]))
    end.
Proof. cbn. by destruct (store_exec op s). Qed.

Lemma not_bytes_foldl_delete rs : forall (s : store) k,
  not_bytes s k ->
  not_bytes (foldl (fun s r => delete (team_key getKey r) s) s rs) k.
Proof.
  induction rs as [|r rs IH]; intros s k H; cbn [foldl]; [done|].
  by apply IH, not_bytes_delete.
Qed.

(** C2: on a healthy store [oob_allgather_free] first increments the
    counter [ag_done].  If the value it gets ([n], converted to [int])
    is the size of the team, it deletes the counter, then every publish
    key by ascending rank, then sets the release key of every rank by
    ascending rank.  Otherwise it waits for its own release key: it goes
    on if the key exists and stays blocked on the [wait] as long as it
    does not.  In both cases the last store operation before [UCC_OK] is
    the deletion of its own release key, which is absent from the store
    the call leaves. *)
Theorem oob_allgather_free_protocol info (s : store) (m : mem) :
  not_bytes s (done_key getKey) ->
  (forall r, r ∈ ranks (size info) -> not_bytes s (free_key getKey r)) ->
  let n := MachInt.to_int64 (done_count getKey s + 1) in
  let s1 := <[done_key getKey := Counter n]> s in
  let own := free_key getKey (rank info) in
  let res := run (oob_allgather_free getKey info) (World s m [] []) in
  (MachInt.to_int n = size info ->
     fst res = Done UCC_OK
     /\ w_trace (snd res)
        = [Call (StoreAdd (done_key getKey) 1);
           Call (StoreDeleteKey (done_key getKey))]
          ++ map (delete_call getKey) (ranks (size info))
          ++ map (release_call getKey) (ranks (size info))
          ++ [Call (StoreDeleteKey own)]
     /\ w_store (snd res) !! own = None)
  /\ (MachInt.to_int n <> size info -> present s1 own = true ->
       fst res = Done UCC_OK
       /\ w_trace (snd res)
          = [Call (StoreAdd (done_key getKey) 1); Call (StoreWait [own]);
             Call (StoreDeleteKey own)]
       /\ w_store (snd res) = delete own s1)
  /\ (MachInt.to_int n <> size info -> present s1 own = false ->
       fst res = Blocked
       /\ w_trace (snd res)
          = [Call (StoreAdd (done_key getKey) 1); Call (StoreWait [own])]
       /\ w_store (snd res) = s1).
Proof.
  intros Hd Hf. cbv zeta. unfold oob_allgather_free.
  rewrite run_try_catch, run_bind, run_store_call, store_add_done by done.
  cbn [app]. rewrite run_bind.
  set (n := MachInt.to_int64 (done_count getKey s + 1)).
  set (s1 := <[done_key getKey := Counter n]> s).
  split_and!.
  - intros Hn. rewrite decide_True by done.
    rewrite run_bind, run_store_call. cbn [store_exec].
    rewrite run_bind, run_delete_loop.
    destruct (run_release_loop (ranks (size info))
                (foldl (fun s r => delete (team_key getKey r) s)
                   (delete (done_key getKey) s1) (ranks (size info)))
                m (([Call (StoreAdd (done_key getKey) 1)]
                     ++ [Call (StoreDeleteKey (done_key getKey))])
                     ++ map (delete_call getKey) (ranks (size info))))
      as (s' & Hrun & _ & _ & _).
    { intros r Hr. apply not_bytes_foldl_delete, not_bytes_delete,
        not_bytes_insert_counter, Hf, Hr. }
    rewrite Hrun. rewrite run_bind, run_store_call. cbn [store_exec run fst snd w_trace w_store].
    split_and!; [done| |apply lookup_delete_eq].
    by rewrite <- !app_assoc.
  - intros Hn Hp. rewrite decide_False by done.
    rewrite run_store_call. cbn [store_exec forallb]. rewrite Hp. cbn [andb].
    rewrite run_bind, run_store_call. cbn [store_exec run fst snd w_trace w_store].
    done.
  - intros Hn Hp. rewrite decide_False by done.
    rewrite run_store_call. cbn [store_exec forallb]. rewrite Hp. cbn [andb].
    done.
Qed.

(** C4: a poll made while a publish key is missing changes neither the
    store nor the memory of the caller, whatever the store does, and does
    not return [UCC_OK]; on a healthy store it returns [UCC_INPROGRESS],
    and so does any number of successive polls, leaving store and memory
    as they were. *)
Theorem poll_before_all_published info (s : store) (m : mem) r :
  0 <= r < size info ->
  s !! team_key getKey r = None ->
  (forall fs tr,
     let res := run (oob_allgather_test getKey info) (World s m fs tr) in
     w_store (snd res) = s /\ w_mem (snd res) = m
     /\ (fst res = Done UCC_INPROGRESS \/ fst res = Done UCC_ERR_NO_MESSAGE))
  /\ (forall n tr,
        exists tr',
          poll_repeat getKey n info (World s m [] tr)
          = (replicate n (Done UCC_INPROGRESS), World s m [] tr')).
Proof.
  intros Hr Hk. split.
  - intros fs tr. by apply (poll_missing_frame info (World s m fs tr) r).
  - induction n as [|n IH]; intros tr; cbn [poll_repeat replicate].
    + by eexists.
    + destruct (poll_missing_healthy info s m tr r Hr Hk) as [tr1 ->].
      destruct (IH tr1) as [tr' ->]. by eexists.
Qed.

(** C5 (as amended): [oob_allgather] reads [msglen] bytes at [sbuf] and
    makes exactly one store call, the [set] of these bytes under the
    publish key of its rank.  It never touches the memory: the receive
    buffer is the caller's.  If the [set] succeeds, the request records
    [rbuf] and [msglen], [*req] is set and the result is [UCC_OK]; if the
    store fails, request and store are unchanged, [*req] is not written
    and the result is [UCC_ERR_NO_MESSAGE]. *)
Theorem oob_allgather_publishes sbuf rb len info (s : store) (m : mem)
    faults tr val :
  mem_read m sbuf (Z.to_nat len) = Some val ->
  let key := team_key getKey (rank info) in
  let info' := CollInfo (rank info) (size info) rb len in
  run (oob_allgather getKey sbuf rb len info) (World s m faults tr)
  = if fst (next_fault faults) then
      (Done (UCC_ERR_NO_MESSAGE, info, None),
       World s m (snd (next_fault faults)) (tr ++ [Call (StoreSet key val)]))
    else
      (Done (UCC_OK, info', Some info'),
       World (<[key := Bytes val]> s) m (snd (next_fault faults))
         (tr ++ [Call (StoreSet key val)])).
Proof.
  intros Hrd. cbv zeta. unfold oob_allgather.
  cbn [mem_call store_call bind try_catch run mem_exec w_mem w_faults].
  rewrite Hrd. by destruct (next_fault faults) as [[] fs].
Qed.

(** C8 (as amended): when the [set] of [oob_allgather] fails the call
    returns [UCC_ERR_NO_MESSAGE] and leaves the request, the store and
    the memory as they were.  No error state is recorded, and a later
    poll of that request is not rejected: on a healthy store it returns
    [UCC_INPROGRESS] as long as the publish key of the peer is
    missing. *)
Theorem failed_initiate_is_not_recorded sbuf rb len info (s : store) (m : mem)
    fs tr val :
  mem_read m sbuf (Z.to_nat len) = Some val ->
  0 <= rank info < size info ->
  s !! team_key getKey (rank info) = None ->
  let res := run (oob_allgather getKey sbuf rb len info)
               (World s m (true :: fs) tr) in
  fst res = Done (UCC_ERR_NO_MESSAGE, info, None)
  /\ w_store (snd res) = s
  /\ w_mem (snd res) = m
  /\ (forall tr', exists tr'',
        run (oob_allgather_test getKey info) (World s m [] tr')
        = (Done UCC_INPROGRESS, World s m [] tr'')).
Proof.
  intros Hrd Hr Hk. cbv zeta.
  rewrite (run_oob_allgather_fault sbuf rb len info s m fs tr val Hrd).
  cbn. split_and!; try done.
  intros tr'. by eapply poll_missing_healthy.
Qed.

Section Rounds.
Hypothesis getKey_inj : Inj (=) (=) getKey.

Lemma team_ranks_NoDup (team : list peer) :
  (forall i p, team !! i = Some p -> rank (p_info p) = Z.of_nat i) ->
  NoDup (map (fun p => rank (p_info p)) team).
Proof.
  intros H. apply NoDup_alt. intros i j x Hi Hj.
  rewrite list_lookup_fmap in Hi, Hj.
  destruct (team !! i) as [p|] eqn:Hp; [|done].
  destruct (team !! j) as [q|] eqn:Hq; [|done].
  cbn in Hi, Hj. apply H in Hp, Hq. simplify_eq. lia.
Qed.

(** C1: after the peers of a team have published buffers of [len] bytes
    each, in whatever order, the poll of every peer returns [UCC_OK]
    having checked and then read the publish keys by ascending rank, and
    the receive buffer of that peer holds the published buffers
    concatenated by ascending rank (the buffer of rank [r] at offset
    [r * len]). *)
Theorem allgather_round_concatenates len (team : list peer)
    (bufs : list (list byte)) (order : list peer) (s0 : store) :
  0 <= len ->
  length bufs = length team ->
  (forall i p, team !! i = Some p ->
     rank (p_info p) = Z.of_nat i
     /\ size (p_info p) = Z.of_nat (length team)
     /\ mem_read (p_mem p) (p_sbuf p) (Z.to_nat len) = bufs !! i
     /\ 0 <= p_rbuf p
     /\ p_rbuf p + len * Z.of_nat (length team) < 2 ^ 64
     /\ is_Some (mem_read (p_mem p) (p_rbuf p)
                   (Z.to_nat (len * Z.of_nat (length team))))) ->
  order ≡ₚ team ->
  forall p, p ∈ team ->
    let s := publish_round getKey len order s0 in
    let all := ranks (Z.of_nat (length team)) in
    exists m',
      poll getKey len p s
      = (Done UCC_OK,
         World s m' []
           (map (check_call getKey) all ++ map (get_call getKey) all))
      /\ mem_read m' (p_rbuf p) (Z.to_nat (len * Z.of_nat (length team)))
         = Some (concat bufs).
Proof.
  intros Hlen Hbufs Hteam Hperm p Hp. cbv zeta.
  apply list_elem_of_lookup in Hp as [ip Hip].
  destruct (Hteam _ _ Hip) as (Hrk & Hsz & _ & Hrb & Hmax & [old Hold]).
  assert (Hnd : NoDup (map (fun p => rank (p_info p)) order)).
  { rewrite Hperm. apply team_ranks_NoDup. intros i q Hq.
    by destruct (Hteam _ _ Hq) as [? _]. }
  destruct (poll_complete (request_of len p)
              (publish_round getKey len order s0) (p_mem p) [] bufs)
    as (m' & Hrun & Hread & _); cbn [request_of msglen rbuf size].
  - done.
  - done.
  - by rewrite Hsz.
  - by rewrite Hsz, Hbufs.
  - intros i b Hb.
    destruct (lookup_lt_is_Some_2 team i) as [q Hq].
    { rewrite <- Hbufs. by eapply lookup_lt_Some. }
    destruct (Hteam _ _ Hq) as (Hrq & _ & Hsq & _).
    rewrite Hb in Hsq. split; [by apply mem_read_length in Hsq|].
    rewrite <- Hrq. apply (publish_round_lookup getKey_inj); [done| |done].
    rewrite Hperm. by eapply list_elem_of_lookup_2.
  - intros x Hx. rewrite Hsz in Hx.
    eapply mem_read_mapped; [exact Hold|]. nia.
  - exists m'. unfold poll. cbn [request_of size app] in Hrun, Hread.
    rewrite Hsz in Hrun, Hread. by split.
Qed.

End Rounds.

End Facts.

Import Samples.

Lemma not_bytes_empty k : not_bytes ∅ k.
Proof. intros b. by rewrite lookup_empty. Qed.

Lemma allgather_round_concatenates_witness :
  let s := publish_round sample_getKey 4 [peer2; peer0; peer1] ∅ in
  let all := ranks 3 in
  exists m',
    poll sample_getKey 4 peer0 s
    = (Done UCC_OK,
       World s m' []
         (map (check_call sample_getKey) all ++ map (get_call sample_getKey) all))
    /\ mem_read m' 16 12
       = Some [x01; x02; x03; x04; x05; x06; x07; x08; x09; x0a; x0b; x0c].
Proof.
  apply (allgather_round_concatenates sample_getKey (String.app_inj "0") 4
           sample_team sample_bufs [peer2; peer0; peer1] ∅).
  - lia.
  - reflexivity.
  - intros [|[|[|i]]] p Hp; cbn in Hp; simplify_eq;
      (split_and!; [reflexivity|reflexivity|reflexivity|done|done|
                    vm_compute; by eexists]).
  - apply (Permutation_cons_append [peer0; peer1] peer2).
  - apply list_elem_of_here.
Defined.

Lemma poll_before_all_published_witness :
  (forall fs tr,
     let res := run (oob_allgather_test sample_getKey (CollInfo 0 3 16 4))
                  (World ∅ ∅ fs tr) in
     w_store (snd res) = ∅ /\ w_mem (snd res) = ∅
     /\ (fst res = Done UCC_INPROGRESS \/ fst res = Done UCC_ERR_NO_MESSAGE))
  /\ (forall n tr,
        exists tr',
          poll_repeat sample_getKey n (CollInfo 0 3 16 4) (World ∅ ∅ [] tr)
          = (replicate n (Done UCC_INPROGRESS), World ∅ ∅ [] tr')).
Proof.
  apply (poll_before_all_published sample_getKey (CollInfo 0 3 16 4) ∅ ∅ 0).
  - cbn. lia.
  - reflexivity.
Defined.

Lemma oob_allgather_publishes_witness :
  run (oob_allgather sample_getKey 0 100 1 solo_info) (World ∅ solo_mem [] [])
  = (Done (UCC_OK, CollInfo 0 1 100 1, Some (CollInfo 0 1 100 1)),
     World (<[team_key sample_getKey 0 := Bytes [x2a]]> ∅) solo_mem []
       [Call (StoreSet (team_key sample_getKey 0) [x2a])]).
Proof.
  apply (oob_allgather_publishes sample_getKey 0 100 1 solo_info ∅ solo_mem
           [] [] [x2a]).
  reflexivity.
Defined.

(** C5 as stated fails: a successful [oob_allgather] leaves the memory
    of the process as it was, and the receive buffer it was handed (here
    one byte at address 100 for a team of one) need not be mapped. *)
Lemma oob_allgather_allocates_nothing :
  let res := run (oob_allgather sample_getKey 0 100 1 solo_info)
               (World ∅ solo_mem [] []) in
  fst res = Done (UCC_OK, CollInfo 0 1 100 1, Some (CollInfo 0 1 100 1))
  /\ w_mem (snd res) = solo_mem
  /\ ~ mapped (w_mem (snd res)) 100 (1 * 1).
Proof.
  cbv zeta.
  rewrite (run_oob_allgather_ok sample_getKey 0 100 1 solo_info ∅ solo_mem []
             [x2a] eq_refl).
  split_and!; [done|done|].
  intros H. destruct (H 100) as [b Hb]; [lia|]. by vm_compute in Hb.
Qed.

Lemma failed_initiate_is_not_recorded_witness :
  let res := run (oob_allgather sample_getKey 0 100 1 solo_info)
               (World ∅ solo_mem [true] []) in
  fst res = Done (UCC_ERR_NO_MESSAGE, solo_info, None)
  /\ w_store (snd res) = ∅
  /\ w_mem (snd res) = solo_mem
  /\ (forall tr', exists tr'',
        run (oob_allgather_test sample_getKey solo_info) (World ∅ solo_mem [] tr')
        = (Done UCC_INPROGRESS, World ∅ solo_mem [] tr'')).
Proof.
  apply (failed_initiate_is_not_recorded sample_getKey 0 100 1 solo_info ∅
           solo_mem [] [] [x2a]).
  - reflexivity.
  - cbn. lia.
  - reflexivity.
Defined.

(** C8 as stated fails: after an [oob_allgather] that failed on the
    store, a poll of the same request answers [UCC_INPROGRESS] and a
    release runs to [UCC_OK]; neither is rejected. *)
Lemma failed_initiate_then_poll_and_release :
  let res := run (oob_allgather sample_getKey 0 100 1 solo_info)
               (World ∅ solo_mem [true] []) in
  fst res = Done (UCC_ERR_NO_MESSAGE, solo_info, None)
  /\ fst (run (oob_allgather_test sample_getKey solo_info) (snd res))
     = Done UCC_INPROGRESS
  /\ fst (run (oob_allgather_free sample_getKey solo_info) (snd res))
     = Done UCC_OK.
Proof. cbv zeta. split_and!; vm_compute; reflexivity. Qed.

Lemma oob_allgather_free_protocol_witness :
  let n := MachInt.to_int64 (done_count sample_getKey ∅ + 1) in
  let s1 := <[done_key sample_getKey := Counter n]> (∅ : store) in
  let own := free_key sample_getKey (rank solo_info) in
  let res := run (oob_allgather_free sample_getKey solo_info)
               (World ∅ ∅ [] []) in
  (MachInt.to_int n = size solo_info ->
     fst res = Done UCC_OK
     /\ w_trace (snd res)
        = [Call (StoreAdd (done_key sample_getKey) 1);
           Call (StoreDeleteKey (done_key sample_getKey))]
          ++ map (delete_call sample_getKey) (ranks (size solo_info))
          ++ map (release_call sample_getKey) (ranks (size solo_info))
          ++ [Call (StoreDeleteKey own)]
     /\ w_store (snd res) !! own = None)
  /\ (MachInt.to_int n <> size solo_info -> present s1 own = true ->
       fst res = Done UCC_OK
       /\ w_trace (snd res)
          = [Call (StoreAdd (done_key sample_getKey) 1); Call (StoreWait [own]);
             Call (StoreDeleteKey own)]
       /\ w_store (snd res) = delete own s1)
  /\ (MachInt.to_int n <> size solo_info -> present s1 own = false ->
       fst res = Blocked
       /\ w_trace (snd res)
          = [Call (StoreAdd (done_key sample_getKey) 1); Call (StoreWait [own])]
       /\ w_store (snd res) = s1).
Proof.
  apply (oob_allgather_free_protocol sample_getKey solo_info ∅ ∅).
  - apply not_bytes_empty.
  - intros r _. apply not_bytes_empty.
Defined.


End OOBFacts.

(** ** The cleanup barrier *)

Module TeamFacts.
Import Team OOBFacts.

Section Facts.

Variable getKey : string -> string.
Variable N : nat.
Abbreviation SZ := (Z.of_nat N).

Lemma code_mk_last2 r S rs :
  code getKey r S (mk_last2 rs)
  = try_catch
      (bind (for_each rs (release_body getKey)) (fun _ => free_tail getKey r))
      on_error.
Proof. by destruct rs. Qed.

Lemma code_mk_last1 r S rs :
  code getKey r S (mk_last1 S rs)
  = try_catch
      (bind
         (bind (for_each rs (delete_body getKey)) (fun _ =>
            for_each (ranks S) (release_body getKey)))
         (fun _ => free_tail getKey r))
      on_error.
Proof. destruct rs; [|done]. cbn [mk_last1]. by rewrite code_mk_last2. Qed.

Lemma thread_steps_code r S (s : store) (m : mem) p :
  thread_steps s (Thread (code getKey r S p) m)
  = map (fun x => (fst x, Thread (code_opt getKey r S (snd x)) m)) (pc_steps getKey r S s p).
Proof.
  destruct p as [| | | |x rs|x rs|]; cbn [pc_steps].
  - unfold thread_steps, code, oob_allgather_free.
    cbn [th_prog th_mem store_call bind try_catch].
    destruct (store_exec _ s) as [n s'| |]; [|done|done].
    cbn [map fst snd code_opt size rank].
    by destruct (decide (MachInt.to_int n = S)).
  - unfold thread_steps, code.
    cbn [th_prog th_mem store_call bind try_catch store_exec forallb].
    rewrite andb_true_r. by destruct (present s _).
  - reflexivity.
  - unfold thread_steps, code.
    cbn [th_prog th_mem store_call bind try_catch store_exec map fst snd code_opt].
    by rewrite code_mk_last1.
  - unfold thread_steps, code.
    cbn [th_prog th_mem store_call bind try_catch store_exec map fst snd
         code_opt for_each delete_body].
    by rewrite code_mk_last1.
  - unfold thread_steps, code.
    cbn [th_prog th_mem store_call bind try_catch for_each release_body].
    destruct (store_exec _ s) as [n s'| |]; [|done|done].
    cbn [map fst snd code_opt]. by rewrite code_mk_last2.
  - reflexivity.
Qed.

Lemma code_ret r S p st : code getKey r S p = Ret st -> p = PDone /\ st = UCC_OK.
Proof. destruct p; cbn; intros H; by simplify_eq. Qed.


(** *** The invariant of the cleanup barrier *)

Lemma count_wait_le pcs : (count_wait pcs <= length pcs)%nat.
Proof. apply length_filter. Qed.

Lemma count_wait_insert pcs : forall i,
  pcs !! i = Some PStart ->
  count_wait (<[i := PWait]> pcs) = S (count_wait pcs).
Proof.
  unfold count_wait.
  induction pcs as [|a pcs IH]; intros [|i] Hi; simplify_eq/=.
  - by rewrite filter_cons_False by done.
  - rewrite !filter_cons. destruct (decide (a = PWait)); cbn; by rewrite IH.
Qed.

Lemma count_wait_full pcs :
  count_wait pcs = length pcs ->
  forall i p, pcs !! i = Some p -> p = PWait.
Proof.
  unfold count_wait.
  induction pcs as [|a pcs IH]; intros Hc i p Hi; [done|].
  rewrite filter_cons in Hc. destruct (decide (a = PWait)) as [->|Hne].
  - cbn in Hc. destruct i as [|i]; simplify_eq/=; [done|]. by eapply IH.
  - pose proof (count_wait_le pcs) as Hle. unfold count_wait in Hle.
    cbn in Hc. lia.
Qed.

Lemma is_last_mk_last2 rs : is_last (mk_last2 rs).
Proof. by destruct rs. Qed.

Lemma is_last_mk_last1 rs : is_last (mk_last1 SZ rs).
Proof. destruct rs; [apply is_last_mk_last2|done]. Qed.

Lemma mk_last2_not rs : mk_last2 rs <> PLast0 /\ mk_last2 rs <> PDone.
Proof. by destruct rs. Qed.

Lemma mk_last1_not rs : mk_last1 SZ rs <> PLast0 /\ mk_last1 SZ rs <> PDone.
Proof. destruct rs; [apply mk_last2_not|done]. Qed.

Lemma wf_mk_last2 rs : rs `suffix_of` ranks SZ -> wf_last N (mk_last2 rs).
Proof. by destruct rs. Qed.

Lemma wf_mk_last1 rs : rs `suffix_of` ranks SZ -> wf_last N (mk_last1 SZ rs).
Proof. destruct rs; [intros _; by apply wf_mk_last2|done]. Qed.

Lemma team_pending_mk_last2 rs r : team_pending (mk_last2 rs) r = false.
Proof. by destruct rs. Qed.

Lemma team_pending_mk_last1 rs r :
  team_pending (mk_last1 SZ rs) r = bool_decide (r ∈ rs).
Proof.
  destruct rs; [|done]. cbn [mk_last1]. rewrite team_pending_mk_last2.
  symmetry. apply bool_decide_eq_false, not_elem_of_nil.
Qed.

Lemma free_pending_mk_last2 rs r :
  free_pending (mk_last2 rs) r = bool_decide (r ∈ rs).
Proof.
  destruct rs; [|done]. symmetry. apply bool_decide_eq_false, not_elem_of_nil.
Qed.

Lemma free_pending_mk_last1 rs r :
  0 <= r < SZ -> free_pending (mk_last1 SZ rs) r = true.
Proof.
  intros Hr. destruct rs; [|done]. cbn [mk_last1].
  rewrite free_pending_mk_last2. apply bool_decide_eq_true.
  unfold ranks. apply elem_of_seqZ. lia.
Qed.


Hypothesis getKey_inj : Inj (=) (=) getKey.
Hypothesis N_pos : (0 < N)%nat.
Hypothesis N_int : SZ < 2 ^ 31.

Lemma store_add_val (s s1 : store) k d n :
  store_exec (StoreAdd k d) s = Val n s1 -> s1 = <[k := Counter n]> s.
Proof.
  cbn [store_exec]. destruct (s !! k) as [[b|c]|]; intros H; by simplify_eq.
Qed.

Lemma suffix_ranks_elem x rs :
  (x :: rs) `suffix_of` ranks SZ -> 0 <= x < SZ /\ x ∉ rs.
Proof.
  intros [k Hk]. split.
  - assert (Hx : x ∈ ranks SZ) by (rewrite Hk; set_solver).
    unfold ranks in Hx. apply elem_of_seqZ in Hx. lia.
  - pose proof (NoDup_seqZ 0 SZ) as Hnd. fold (ranks SZ) in Hnd.
    rewrite Hk in Hnd. apply NoDup_app in Hnd as (_ & _ & Hnd).
    by apply NoDup_cons in Hnd as [? _].
Qed.

Lemma suffix_ranks_tail x rs :
  (x :: rs) `suffix_of` ranks SZ -> rs `suffix_of` ranks SZ.
Proof. intros H. by eapply suffix_cons_l. Qed.

Lemma free_key_of_nat_ne i j :
  i <> j -> free_key getKey (Z.of_nat i) <> free_key getKey (Z.of_nat j).
Proof.
  intros Hne Hk. apply (free_key_inj getKey getKey_inj) in Hk.
  by apply Nat2Z.inj in Hk.
Qed.

(** Steps of a peer before anybody is last. *)
Lemma good_step_A s pcs i p s' p' :
  length pcs = N ->
  GoodA getKey N s pcs ->
  pcs !! i = Some p ->
  (s', Some p') ∈ pc_steps getKey (Z.of_nat i) SZ s p ->
  GoodA getKey N s' (<[i := p']> pcs) \/ exists l pl, GoodB getKey N s' (<[i := p']> pcs) l pl.
Proof.
  intros Hlen [Hpcs Hcnt Hdone Hnb Hfree] Hi Hstep.
  assert (Hilt : (i < N)%nat) by (rewrite <- Hlen; by eapply lookup_lt_Some).
  destruct (Hpcs _ _ Hi) as [-> | ->]; cbn [pc_steps] in Hstep.
  - rewrite (store_add_done getKey) in Hstep by done.
    apply elem_of_cons in Hstep as [?|Hstep]; [simplify_eq|].
    apply list_elem_of_singleton in Hstep.
    rewrite Hdone in Hstep.
    pose proof (count_wait_le pcs) as Hle.
    rewrite to_int64_small, to_int_small in Hstep by lia.
    injection Hstep as -> Hp'.
    destruct (decide (Z.of_nat (count_wait pcs) + 1 = SZ)) as [Hlast|Hnot];
      subst p'.
    + right. exists i, PLast0. constructor.
      * apply list_lookup_insert_eq. lia.
      * done.
      * done.
      * intros j q Hj Hq. rewrite list_lookup_insert_ne in Hq by done. left.
        apply (count_wait_full (<[i := PWait]> pcs)) with j.
        -- rewrite count_wait_insert, length_insert by done. lia.
        -- by rewrite list_lookup_insert_ne.
      * done.
      * intros r _ Hr. discriminate.
      * intros j q Hq. split; [by left|intros _].
        rewrite lookup_insert_ne
          by (apply not_eq_sym, (free_key_ne_done getKey getKey_inj)).
        apply Hfree. apply lookup_lt_Some in Hq.
        rewrite length_insert in Hq. lia.
    + left. constructor.
      * intros j q Hq. destruct (decide (i = j)) as [->|Hne].
        -- rewrite list_lookup_insert_eq in Hq by lia. simplify_eq. by right.
        -- rewrite list_lookup_insert_ne in Hq by done. by eapply Hpcs.
      * rewrite count_wait_insert by done. lia.
      * unfold done_count. rewrite lookup_insert_eq.
        rewrite count_wait_insert by done. lia.
      * intros b. by rewrite lookup_insert_eq.
      * intros j Hj. rewrite lookup_insert_ne
          by (apply not_eq_sym, (free_key_ne_done getKey getKey_inj)).
        by apply Hfree.
  - assert (Hp : present s (free_key getKey (Z.of_nat i)) = false).
    { apply present_false. by apply Hfree. }
    rewrite Hp in Hstep. apply list_elem_of_singleton in Hstep. simplify_eq.
Qed.


Lemma lookup_delete_None (s : store) k k' :
  s !! k = None -> delete k' s !! k = None.
Proof.
  intros H. destruct (decide (k' = k)) as [->|Hne].
  - apply lookup_delete_eq.
  - by rewrite lookup_delete_ne.
Qed.

(** Steps of the peer that arrived last. *)
Lemma good_step_B_last s pcs l pl s' p' :
  length pcs = N ->
  GoodB getKey N s pcs l pl ->
  (s', Some p') ∈ pc_steps getKey (Z.of_nat l) SZ s pl ->
  GoodB getKey N s' (<[l := p']> pcs) l p'.
Proof.
  intros Hlen [Hl Hlast Hwf Hoth Hdone Hteam Hfree] Hstep.
  assert (Hllt : (l < N)%nat) by (rewrite <- Hlen; by eapply lookup_lt_Some).
  assert (Hl' : <[l := p']> pcs !! l = Some p')
    by (apply list_lookup_insert_eq; lia).
  assert (Hjlt : forall j q, <[l := p']> pcs !! j = Some q -> 0 <= Z.of_nat j < SZ).
  { intros j q Hq. apply lookup_lt_Some in Hq. rewrite length_insert in Hq. lia. }
  clear Hlen.
  destruct pl as [| | | |x rs|x rs|]; cbn [pc_steps] in Hstep.
  - by destruct Hlast.
  - by destruct Hlast as [_ ?].
  - (* the last peer deletes its own release key *)
    apply elem_of_cons in Hstep as [?|Hstep]; [simplify_eq|].
    apply list_elem_of_singleton in Hstep. simplify_eq.
    constructor; try done.
    + intros j q Hj Hq. rewrite list_lookup_insert_ne in Hq by done.
      exact (Hoth j q Hj Hq).
    + intros _. by apply lookup_delete_None, Hdone.
    + intros r Hr _. by apply lookup_delete_None, Hteam.
    + intros j q Hq. destruct (decide (l = j)) as [->|Hne].
      * rewrite Hl' in Hq. simplify_eq. rewrite lookup_delete_eq.
        split; [by right|done].
      * rewrite list_lookup_insert_ne in Hq by done.
        rewrite lookup_delete_ne by (by apply free_key_of_nat_ne).
        by apply Hfree.
  - (* the last peer deletes the counter *)
    apply elem_of_cons in Hstep as [?|Hstep]; [simplify_eq|].
    apply list_elem_of_singleton in Hstep. simplify_eq.
    constructor; try done.
    + apply is_last_mk_last1.
    + apply wf_mk_last1. done.
    + intros j q Hj Hq. rewrite list_lookup_insert_ne in Hq by done.
      destruct (Hoth _ _ Hj Hq) as [->|[_ ?]]; [by left|done].
    + intros _. apply lookup_delete_eq.
    + intros r Hr Hp. rewrite team_pending_mk_last1 in Hp.
      apply bool_decide_eq_false in Hp. exfalso. apply Hp.
      unfold ranks. apply elem_of_seqZ. lia.
    + intros j q Hq.
      rewrite free_pending_mk_last1 by (by eapply Hjlt).
      rewrite lookup_delete_ne by (apply not_eq_sym, (free_key_ne_done getKey getKey_inj)).
      split; [by left|intros _].
      destruct (decide (l = j)) as [->|Hne].
      * apply (Hfree _ _ Hl). by left.
      * rewrite list_lookup_insert_ne in Hq by done.
        apply (Hfree _ _ Hq). by left.
  - (* the last peer deletes a publish key *)
    apply elem_of_cons in Hstep as [?|Hstep]; [simplify_eq|].
    apply list_elem_of_singleton in Hstep. simplify_eq.
    cbn [wf_last] in Hwf.
    constructor; try done.
    + apply is_last_mk_last1.
    + apply wf_mk_last1. by eapply suffix_ranks_tail.
    + intros j q Hj Hq. rewrite list_lookup_insert_ne in Hq by done.
      destruct (Hoth _ _ Hj Hq) as [->|[_ ?]]; [by left|done].
    + intros _. by apply lookup_delete_None, Hdone.
    + intros r Hr Hp. rewrite team_pending_mk_last1 in Hp.
      apply bool_decide_eq_false in Hp.
      destruct (decide (r = x)) as [->|Hne]; [apply lookup_delete_eq|].
      apply lookup_delete_None, Hteam; [done|].
      cbn [team_pending]. apply bool_decide_eq_false.
      intros [?|?]%elem_of_cons; done.
    + intros j q Hq.
      rewrite free_pending_mk_last1 by (by eapply Hjlt).
      rewrite lookup_delete_ne by (apply (team_key_ne_free getKey getKey_inj)).
      split; [by left|intros _].
      destruct (decide (l = j)) as [->|Hne].
      * apply (Hfree _ _ Hl). by left.
      * rewrite list_lookup_insert_ne in Hq by done.
        apply (Hfree _ _ Hq). by left.
  - (* the last peer sets a release key *)
    apply elem_of_cons in Hstep as [?|Hstep]; [simplify_eq|].
    destruct (store_exec _ s) as [n s1| |] eqn:Hex;
      [|by apply elem_of_nil in Hstep..].
    apply list_elem_of_singleton in Hstep. simplify_eq.
    apply store_add_val in Hex as ->.
    cbn [wf_last] in Hwf.
    destruct (suffix_ranks_elem _ _ Hwf) as [Hx Hxrs].
    constructor; try done.
    + apply is_last_mk_last2.
    + apply wf_mk_last2. by eapply suffix_ranks_tail.
    + intros j q Hj Hq. rewrite list_lookup_insert_ne in Hq by done.
      destruct (Hoth _ _ Hj Hq) as [->|[Hq' Hp]]; [by left|right].
      split; [done|]. rewrite free_pending_mk_last2.
      cbn [free_pending] in Hp. apply bool_decide_eq_false in Hp.
      apply bool_decide_eq_false. intros ?. apply Hp. by right.
    + intros _. rewrite lookup_insert_ne
        by (apply (free_key_ne_done getKey getKey_inj)).
      by apply Hdone.
    + intros r Hr _. rewrite lookup_insert_ne
        by (apply not_eq_sym, (team_key_ne_free getKey getKey_inj)).
      by apply Hteam.
    + intros j q Hq. rewrite free_pending_mk_last2.
      destruct (decide (Z.of_nat j = x)) as [<-|Hne].
      * rewrite lookup_insert_eq. split; [done|].
        intros [Hp | ->].
        -- by apply bool_decide_eq_true in Hp.
        -- exfalso. destruct (decide (l = j)) as [->|Hlj].
           ++ rewrite Hl' in Hq. simplify_eq. by destruct (mk_last2_not rs).
           ++ rewrite list_lookup_insert_ne in Hq by done.
              destruct (Hoth _ _ (not_eq_sym Hlj) Hq) as [?|[_ Hp]]; [done|].
              cbn [free_pending] in Hp. apply bool_decide_eq_false in Hp.
              apply Hp. by left.
      * rewrite lookup_insert_ne
          by (intros Hk; apply (free_key_inj getKey getKey_inj) in Hk; done).
        assert (Hpend : bool_decide (Z.of_nat j ∈ rs)
                        = free_pending (PLast2 x rs) (Z.of_nat j)).
        { cbn [free_pending]. apply bool_decide_ext.
          rewrite elem_of_cons. split; [by right|by intros [?|?]]. }
        rewrite Hpend.
        destruct (decide (l = j)) as [->|Hlj].
        -- rewrite Hl' in Hq. simplify_eq.
           rewrite (Hfree _ _ Hl).
           destruct (mk_last2_not rs).
           split; (intros [?|?]; [by left|done]).
        -- rewrite list_lookup_insert_ne in Hq by done. by apply Hfree.
  - by apply elem_of_nil in Hstep.
Qed.


(** Steps of the other peers once somebody is last. *)
Lemma good_step_B_other s pcs l pl i p s' p' :
  length pcs = N ->
  GoodB getKey N s pcs l pl ->
  i <> l ->
  pcs !! i = Some p ->
  (s', Some p') ∈ pc_steps getKey (Z.of_nat i) SZ s p ->
  GoodB getKey N s' (<[i := p']> pcs) l pl.
Proof.
  intros Hlen [Hl Hlast Hwf Hoth Hdone Hteam Hfree] Hil Hi Hstep.
  assert (Hilt : (i < N)%nat) by (rewrite <- Hlen; by eapply lookup_lt_Some).
  assert (Hi' : <[i := p']> pcs !! i = Some p')
    by (apply list_lookup_insert_eq; lia).
  clear Hlen.
  destruct (Hoth _ _ Hil Hi) as [-> | [[-> | ->] Hpend]]; cbn [pc_steps] in Hstep.
  - (* a waiting peer sees its release key *)
    apply elem_of_cons in Hstep as [?|Hstep]; [simplify_eq|].
    destruct (present s _) eqn:Hp; [|by apply elem_of_nil in Hstep].
    apply list_elem_of_singleton in Hstep. simplify_eq.
    apply present_true in Hp.
    assert (Hpend : free_pending pl (Z.of_nat i) = false).
    { destruct (free_pending pl (Z.of_nat i)) eqn:Hfp; [|done].
      exfalso. destruct Hp as [v Hv].
      pose proof (proj2 (Hfree _ _ Hi) (or_introl Hfp)) as Hn.
      congruence. }
    constructor; try done.
    + by rewrite list_lookup_insert_ne.
    + intros j q Hj Hq. destruct (decide (i = j)) as [->|Hne].
      * rewrite Hi' in Hq. simplify_eq. right. split; [by left|done].
      * rewrite list_lookup_insert_ne in Hq by done. by apply Hoth.
    + intros j q Hq. destruct (decide (i = j)) as [->|Hne].
      * rewrite Hi' in Hq. simplify_eq. rewrite (Hfree _ _ Hi).
        split; (intros [?|?]; [by left|done]).
      * rewrite list_lookup_insert_ne in Hq by done. by apply Hfree.
  - (* a released peer deletes its release key *)
    apply elem_of_cons in Hstep as [?|Hstep]; [simplify_eq|].
    apply list_elem_of_singleton in Hstep. simplify_eq.
    constructor; try done.
    + by rewrite list_lookup_insert_ne.
    + intros j q Hj Hq. destruct (decide (i = j)) as [->|Hne].
      * rewrite Hi' in Hq. simplify_eq. right. split; [by right|done].
      * rewrite list_lookup_insert_ne in Hq by done. by apply Hoth.
    + intros Hpl. by apply lookup_delete_None, Hdone.
    + intros r Hr Hp. by apply lookup_delete_None, Hteam.
    + intros j q Hq. destruct (decide (i = j)) as [->|Hne].
      * rewrite Hi' in Hq. simplify_eq. rewrite lookup_delete_eq.
        split; [by right|done].
      * rewrite list_lookup_insert_ne in Hq by done.
        rewrite lookup_delete_ne by (by apply free_key_of_nat_ne).
        by apply Hfree.
  - by apply elem_of_nil in Hstep.
Qed.

Lemma good_step s pcs i p s' p' :
  Good getKey N s pcs ->
  pcs !! i = Some p ->
  (s', Some p') ∈ pc_steps getKey (Z.of_nat i) SZ s p ->
  Good getKey N s' (<[i := p']> pcs).
Proof.
  intros [Hlen HG] Hi Hstep. split; [by rewrite length_insert|].
  destruct HG as [HA|(l & pl & HB)].
  - by eapply good_step_A.
  - right. destruct (decide (i = l)) as [->|Hne].
    + exists l, p'. pose proof (gB_l _ _ _ _ _ _ HB) as Hl.
      assert (p = pl) as -> by congruence. by eapply good_step_B_last.
    + exists l, pl. by eapply good_step_B_other.
Qed.

(** When every peer stands at the end, the keys of the round are gone. *)
Lemma good_final s pcs :
  Good getKey N s pcs ->
  (forall i p, pcs !! i = Some p -> p = PDone) ->
  s !! done_key getKey = None
  /\ forall r, 0 <= r < SZ ->
       s !! team_key getKey r = None /\ s !! free_key getKey r = None.
Proof.
  intros [Hlen [HA|(l & pl & HB)]] Hall.
  - exfalso. destruct (lookup_lt_is_Some_2 pcs 0%nat) as [p Hp]; [lia|].
    destruct (gA_pcs _ _ _ _ HA _ _ Hp) as [-> | ->]; by apply Hall in Hp.
  - destruct HB as [Hl Hlast Hwf Hoth Hdone Hteam Hfree].
    pose proof (Hall _ _ Hl) as ->. split; [by apply Hdone|].
    intros r Hr. split; [by apply Hteam|].
    destruct (lookup_lt_is_Some_2 pcs (Z.to_nat r)) as [p Hp]; [lia|].
    pose proof (Hall _ _ Hp) as ->.
    apply Hfree in Hp. rewrite Z2Nat.id in Hp by lia. apply Hp. by right.
Qed.

Lemma good_initial (s : store) :
  s !! done_key getKey = None ->
  (forall r, 0 <= r < SZ -> s !! free_key getKey r = None) ->
  Good getKey N s (replicate N PStart).
Proof.
  intros Hd Hf. split; [apply length_replicate|]. left.
  assert (Hc : count_wait (replicate N PStart) = 0%nat).
  { unfold count_wait. clear. induction N as [|n IH]; [done|].
    cbn [replicate]. by rewrite filter_cons_False. }
  constructor.
  - intros i p Hp. apply lookup_replicate in Hp as [-> _]. by left.
  - by rewrite Hc.
  - unfold done_count. by rewrite Hd, Hc.
  - intros b. by rewrite Hd.
  - intros i Hi. apply Hf. lia.
Qed.


(** *** From the programs of the peers to the invariant *)

Lemma oob_allgather_free_ext info info' :
  rank info = rank info' -> size info = size info' ->
  oob_allgather_free getKey info = oob_allgather_free getKey info'.
Proof.
  destruct info, info'. cbn. intros -> ->. reflexivity.
Qed.

Lemma inv_step c c' : Inv getKey N c -> step c c' -> Inv getKey N c'.
Proof.
  intros HI Hst. destruct Hst as [c i t s' t' Hi Hstep].
  destruct HI as [(j & tj & st & Hj & Hret & Hst)|(pcs & Habs & HG)].
  - left. exists j, tj, st. split_and!; [|done|done]. cbn [c_pool].
    destruct (decide (i = j)) as [->|Hne].
    + rewrite Hi in Hj. simplify_eq. unfold thread_steps in Hstep.
      rewrite Hret in Hstep. by apply elem_of_nil in Hstep.
    + by rewrite list_lookup_insert_ne.
  - pose proof (Habs i) as Hai. rewrite Hi in Hai. cbn in Hai.
    destruct (pcs !! i) as [p|] eqn:Hp; [|done]. cbn in Hai.
    destruct t as [tp tm]. cbn [th_prog] in Hai. simplify_eq.
    rewrite thread_steps_code in Hstep.
    apply list_elem_of_fmap in Hstep as ([s'' o] & Heq & Hin).
    cbn [fst snd] in Heq. simplify_eq.
    assert (Hilt : (i < length (c_pool c))%nat) by (by eapply lookup_lt_Some).
    destruct o as [p'|].
    + right. exists (<[i := p']> pcs). cbn [c_pool c_store]. split.
      * intros j. destruct (decide (i = j)) as [->|Hne].
        -- rewrite !list_lookup_insert_eq; [done| |done].
           by eapply lookup_lt_Some.
        -- rewrite !list_lookup_insert_ne by done. apply Habs.
      * by eapply good_step.
    + left. exists i, (Thread on_error tm), UCC_ERR_NO_MESSAGE.
      cbn [c_pool]. split_and!; [|done|done].
      by apply list_lookup_insert_eq.
Qed.

Lemma inv_rtc c c' : rtc step c c' -> Inv getKey N c -> Inv getKey N c'.
Proof. induction 1 as [|c1 c2 c3 Hst _ IH]; [done|]. intros HI. by eapply IH, inv_step. Qed.

Lemma inv_initial (s0 : store) (pool0 : list thread) :
  length pool0 = N ->
  (forall i t, pool0 !! i = Some t ->
     exists info,
       th_prog t = oob_allgather_free getKey info
       /\ rank info = Z.of_nat i /\ size info = SZ) ->
  s0 !! done_key getKey = None ->
  (forall r, 0 <= r < SZ -> s0 !! free_key getKey r = None) ->
  Inv getKey N (Config s0 pool0).
Proof.
  intros Hlen Hpool Hd Hf. right. exists (replicate N PStart). split.
  - intros i. cbn [c_pool].
    destruct (pool0 !! i) as [t|] eqn:Ht.
    + destruct (Hpool _ _ Ht) as (info & Hprog & Hrk & Hsz).
      rewrite lookup_replicate_2 by (rewrite <- Hlen; by eapply lookup_lt_Some).
      change (Some (th_prog t)
              = Some (oob_allgather_free getKey (CollInfo (Z.of_nat i) SZ 0 0))).
      f_equal. rewrite Hprog. by apply oob_allgather_free_ext.
    + apply lookup_ge_None in Ht.
      assert (Hn : replicate N PStart !! i = None)
        by (apply lookup_replicate_None; lia).
      by rewrite Hn.
  - by apply good_initial.
Qed.

Lemma inv_final c :
  Inv getKey N c -> all_returned_ok c ->
  c_store c !! done_key getKey = None
  /\ forall r, 0 <= r < SZ ->
       c_store c !! team_key getKey r = None
       /\ c_store c !! free_key getKey r = None.
Proof.
  intros [(j & tj & st & Hj & Hret & Hst)|(pcs & Habs & HG)] Hok.
  - exfalso. apply list_elem_of_lookup_2 in Hj. apply Hok in Hj. congruence.
  - eapply good_final; [done|]. intros i p Hp.
    pose proof (Habs i) as Hai. rewrite Hp in Hai. cbn in Hai.
    destruct (c_pool c !! i) as [t|] eqn:Ht; [|done]. cbn in Hai.
    apply list_elem_of_lookup_2 in Ht. apply Hok in Ht. simplify_eq.
    rewrite Ht in Hai. symmetry in Hai.
    by apply code_ret in Hai as [? _].
Qed.

End Facts.

Lemma run_schedule_sound sched : forall c c',
  run_schedule sched c = Some c' -> rtc step c c'.
Proof.
  induction sched as [|[i j] sched IH]; intros c c' Hrun; cbn in Hrun.
  - simplify_eq. apply rtc_refl.
  - destruct (c_pool c !! i) as [t|] eqn:Ht; [|done].
    destruct (thread_steps (c_store c) t !! j) as [[s' t']|] eqn:Hj; [|done].
    eapply rtc_l; [|by apply IH].
    econstructor; [done|]. by eapply list_elem_of_lookup_2.
Qed.

(** C3: the [N] peers of a team (ranks 0 to [N-1]) run
    [oob_allgather_free] concurrently, their store operations interleaved
    in any way and any of them possibly failing, from a store in which
    the counter and the release keys of the round do not exist.  Whenever
    all the peers have returned [UCC_OK], the store holds neither the
    counter [ag_done], nor any publish key [teamr<r>], nor any release
    key [ag_free<r>] of the round. *)
Theorem release_drains_namespace getKey (N : nat) (pool0 : list thread)
    (s0 : store) (c : config) :
  Inj (=) (=) getKey ->
  (0 < N)%nat ->
  Z.of_nat N < 2 ^ 31 ->
  length pool0 = N ->
  (forall i t, pool0 !! i = Some t ->
     exists info,
       th_prog t = oob_allgather_free getKey info
       /\ rank info = Z.of_nat i /\ size info = Z.of_nat N) ->
  s0 !! done_key getKey = None ->
  (forall r, 0 <= r < Z.of_nat N -> s0 !! free_key getKey r = None) ->
  rtc step (Config s0 pool0) c ->
  all_returned_ok c ->
  c_store c !! done_key getKey = None
  /\ forall r, 0 <= r < Z.of_nat N ->
       c_store c !! team_key getKey r = None
       /\ c_store c !! free_key getKey r = None.
Proof.
  intros Hinj Hpos Hint Hlen Hpool Hd Hf Hrtc Hok.
  assert (HI : Inv getKey N c).
  { eapply inv_rtc; eauto. by apply inv_initial. }
  eapply inv_final; eauto.
Qed.

Import Samples.

Lemma release_drains_namespace_witness :
  c_store pair_final !! done_key sample_getKey = None
  /\ forall r, 0 <= r < Z.of_nat 2 ->
       c_store pair_final !! team_key sample_getKey r = None
       /\ c_store pair_final !! free_key sample_getKey r = None.
Proof.
  apply (release_drains_namespace sample_getKey 2 pair_pool pair_store
           pair_final (String.app_inj "0")).
  - lia.
  - done.
  - reflexivity.
  - intros [|[|i]] t Ht.
    + injection Ht as <-. by exists (CollInfo 0 2 0 0).
    + injection Ht as <-. by exists (CollInfo 1 2 0 0).
    + discriminate Ht.
  - reflexivity.
  - intros r Hr. assert (r = 0 \/ r = 1) as [-> | ->] by lia; reflexivity.
  - apply (run_schedule_sound pair_schedule). vm_compute. reflexivity.
  - intros t Ht. vm_compute in Ht.
    apply elem_of_cons in Ht as [->|Ht]; [reflexivity|].
    apply elem_of_cons in Ht as [->|Ht]; [reflexivity|].
    by apply elem_of_nil in Ht.
Defined.

End TeamFacts.

(** ** Communicator construction *)

Module LifecycleFacts.
Import Lifecycle.

Ltac run_ctor :=
  unfold CommUCX, CommUCC, TORCH_UCX_CHECK, TORCH_UCC_CHECK, TORCH_CHECK,
    cbind, ucx_call, ucc_call, void_call, cret, throw;
  repeat (first
    [ rewrite bool_decide_true by (first [done | congruence])
    | rewrite bool_decide_false by (first [done | congruence]) ]);
  cbn [app].

(** C6 as stated fails for [CommUCC]: with a library that reports
    single-threaded mode the constructor throws while holding the
    library handle obtained from [ucc_init], and it has issued a
    teardown call (the release of the lib config). *)
Lemma CommUCC_single_thread_after_init :
  let r := CommUCC sample_oob
             (healthy_ucc UCC_THREAD_SINGLE UCC_OK UCC_OK) [] in
  (exists what, snd r = Thrown what)
  /\ acquired (fst r) = [UccLibConfig; UccLib]
  /\ live (fst r) = [UccLib]
  /\ teardown_calls (fst r) = [Event ucc_lib_config_release true]
  /\ ~ (acquired (fst r) = [] /\ live (fst r) = []
        /\ teardown_calls (fst r) = []).
Proof.
  vm_compute. split; [eauto|]. repeat split. intros [? _]. discriminate.
Qed.

(** C6 (as amended): a library that does not report multi-threaded mode
    makes both constructors throw.  [CommUCX] checks first: its only
    library call is [ucp_lib_query], it acquires nothing and issues no
    teardown call.  [CommUCC] checks after it has read the lib config,
    initialised the library and released the lib config; it makes no
    call on a context config or a context. *)
Theorem single_threaded_library_rejected comm_size oob LX LC :
  ucp_lib_query_st LX = UCS_OK ->
  max_thread_level LX <> UCS_THREAD_MODE_MULTI ->
  ucc_lib_config_read_st LC = UCC_OK ->
  ucc_init_st LC = UCC_OK ->
  ucc_lib_get_attr_st LC = UCC_OK ->
  thread_mode LC <> UCC_THREAD_MULTIPLE ->
  (exists what,
     CommUCX comm_size LX [] = ([Event ucp_lib_query true], Thrown what)
     /\ acquired [Event ucp_lib_query true] = []
     /\ live [Event ucp_lib_query true] = []
     /\ teardown_calls [Event ucp_lib_query true] = [])
  /\ (exists tr what,
        CommUCC oob LC [] = (tr, Thrown what)
        /\ acquired tr = [UccLibConfig; UccLib]
        /\ UccLibConfig ∈ released tr
        /\ Forall (fun e => context_api (ev_api e) = false) tr).
Proof.
  intros Hq Hm Hr Hi Ha Ht. split.
  - eexists. split; [|by vm_compute].
    run_ctor. rewrite ?Hq. run_ctor. reflexivity.
  - do 2 eexists. split.
    + run_ctor. rewrite ?Hr, ?Hi, ?Ha. run_ctor. reflexivity.
    + split_and!; [reflexivity|apply list_elem_of_here|].
      repeat constructor.
Qed.

Lemma single_threaded_library_rejected_witness :
  (exists what,
     CommUCX 2 (healthy_ucx UCS_THREAD_MODE_SINGLE UCS_OK) []
     = ([Event ucp_lib_query true], Thrown what)
     /\ acquired [Event ucp_lib_query true] = []
     /\ live [Event ucp_lib_query true] = []
     /\ teardown_calls [Event ucp_lib_query true] = [])
  /\ (exists tr what,
        CommUCC sample_oob (healthy_ucc UCC_THREAD_SINGLE UCC_OK UCC_OK) []
        = (tr, Thrown what)
        /\ acquired tr = [UccLibConfig; UccLib]
        /\ UccLibConfig ∈ released tr
        /\ Forall (fun e => context_api (ev_api e) = false) tr).
Proof.
  apply (single_threaded_library_rejected 2 sample_oob
           (healthy_ucx UCS_THREAD_MODE_SINGLE UCS_OK)
           (healthy_ucc UCC_THREAD_SINGLE UCC_OK UCC_OK));
    first [reflexivity | discriminate].
Defined.

(** C7: when the last creation step of a constructor fails
    ([ucc_context_create] in [CommUCC], [ucp_worker_create] in
    [CommUCX]) the constructor throws, and between the failing call and
    the throw it releases every resource that was alive at that point,
    each exactly once, in the reverse of the order of acquisition, so
    that nothing is alive when the exception leaves. *)
Theorem creation_failure_rolls_back comm_size oob LX LC :
  ucp_lib_query_st LX = UCS_OK ->
  max_thread_level LX = UCS_THREAD_MODE_MULTI ->
  ucp_config_read_st LX = UCS_OK ->
  ucp_init_st LX = UCS_OK ->
  ucp_worker_create_st LX <> UCS_OK ->
  ucc_lib_config_read_st LC = UCC_OK ->
  ucc_init_st LC = UCC_OK ->
  ucc_lib_get_attr_st LC = UCC_OK ->
  thread_mode LC = UCC_THREAD_MULTIPLE ->
  ucc_context_config_read_st LC = UCC_OK ->
  ucc_context_config_modify_st LC = UCC_OK ->
  ucc_context_create_st LC <> UCC_OK ->
  (exists pre post what,
     CommUCX comm_size LX []
     = (pre ++ Event ucp_worker_create false :: post, Thrown what)
     /\ live (pre ++ [Event ucp_worker_create false]) = [UcpContext]
     /\ released post = rev [UcpContext]
     /\ live (pre ++ Event ucp_worker_create false :: post) = [])
  /\ (exists pre post what,
        CommUCC oob LC []
        = (pre ++ Event ucc_context_create false :: post, Thrown what)
        /\ live (pre ++ [Event ucc_context_create false])
           = [UccLib; UccContextConfig]
        /\ released post = rev [UccLib; UccContextConfig]
        /\ live (pre ++ Event ucc_context_create false :: post) = []).
Proof.
  intros Hq Hm Hc Hi Hw Hr Hi' Ha Ht Hcr Hcm Hcc. split.
  - exists [Event ucp_lib_query true; Event ucp_config_read true;
            Event ucp_init true; Event ucp_config_release true].
    exists [Event TORCH_UCC_LOG_ERROR true; Event ucp_cleanup true].
    eexists. split; [|by vm_compute].
    run_ctor. rewrite ?Hq, ?Hc, ?Hi. run_ctor. reflexivity.
  - exists [Event ucc_lib_config_read true; Event ucc_init true;
            Event ucc_lib_config_release true; Event ucc_lib_get_attr true;
            Event ucc_context_config_read true;
            Event ucc_context_config_modify true].
    destruct (decide (ucc_finalize_st LC = UCC_OK)) as [Hf|Hf].
    + exists [Event ucc_context_config_release true; Event ucc_finalize true;
              Event TORCH_UCC_LOG_ERROR true].
      eexists. split; [|by vm_compute].
      run_ctor. rewrite ?Hr, ?Hi', ?Ha, ?Hcr, ?Hcm, ?Hf. run_ctor. reflexivity.
    + exists [Event ucc_context_config_release true;
              Event ucc_finalize false].
      eexists. split; [|by vm_compute].
      run_ctor. rewrite ?Hr, ?Hi', ?Ha, ?Hcr, ?Hcm. run_ctor. reflexivity.
Qed.

Lemma creation_failure_rolls_back_witness :
  (exists pre post what,
     CommUCX 2 (healthy_ucx UCS_THREAD_MODE_MULTI (UCS_ERR (-4))) []
     = (pre ++ Event ucp_worker_create false :: post, Thrown what)
     /\ live (pre ++ [Event ucp_worker_create false]) = [UcpContext]
     /\ released post = rev [UcpContext]
     /\ live (pre ++ Event ucp_worker_create false :: post) = [])
  /\ (exists pre post what,
        CommUCC sample_oob
          (healthy_ucc UCC_THREAD_MULTIPLE (UCC_ERR_OTHER (-5)) UCC_OK) []
        = (pre ++ Event ucc_context_create false :: post, Thrown what)
        /\ live (pre ++ [Event ucc_context_create false])
           = [UccLib; UccContextConfig]
        /\ released post = rev [UccLib; UccContextConfig]
        /\ live (pre ++ Event ucc_context_create false :: post) = []).
Proof.
  apply (creation_failure_rolls_back 2 sample_oob
           (healthy_ucx UCS_THREAD_MODE_MULTI (UCS_ERR (-4)))
           (healthy_ucc UCC_THREAD_MULTIPLE (UCC_ERR_OTHER (-5)) UCC_OK));
    first [reflexivity | discriminate].
Defined.

End LifecycleFacts.

(** ** Tracing *)

Module TracingFacts.
Import Tracing.

Lemma string_app_assoc (a b c : string) : (a +:+ b) +:+ c = a +:+ b +:+ c.
Proof.
  induction a as [|ch a IH]; [done|].
  change (String ch ((a +:+ b) +:+ c) = String ch (a +:+ b +:+ c)).
  by f_equal.
Qed.

Lemma string_app_nil_r (a : string) : a +:+ EmptyString = a.
Proof.
  induction a as [|ch a IH]; [done|].
  change (String ch (a +:+ EmptyString) = String ch a). by f_equal.
Qed.

Section Facts.

Context (ScalarType : Type) (kByte : ScalarType)
  (toString : ScalarType -> string)
  (DeviceType : Type) (CPU : DeviceType)
  (DeviceTypeName : DeviceType -> string)
  (show_strings : list string -> string).

Abbreviation logger := (CommTraceLogger ScalarType).
Abbreviation tensor := (Tensor ScalarType DeviceType).
Abbreviation recordComms' :=
  (recordComms ScalarType kByte toString DeviceType CPU DeviceTypeName
     show_strings).
Abbreviation record_fields' :=
  (record_fields ScalarType kByte toString DeviceType CPU DeviceTypeName
     show_strings).
Abbreviation call_fields' :=
  (call_fields ScalarType kByte toString DeviceType CPU DeviceTypeName
     show_strings).
Abbreviation recordComms_call' :=
  (recordComms_call ScalarType kByte toString DeviceType CPU DeviceTypeName
     show_strings).
Abbreviation recordComms_seq' :=
  (recordComms_seq ScalarType kByte toString DeviceType CPU DeviceTypeName
     show_strings).
Abbreviation seq_fields' :=
  (seq_fields ScalarType kByte toString DeviceType CPU DeviceTypeName
     show_strings).

(** The string pushed by [recordComms] is the rendering of
    [record_fields]. *)
Lemma recordComms_trace commName workReq rank world_size
    (ins outs : list tensor) now (t : logger) :
  comms_trace_ _ (recordComms' commName workReq rank world_size ins outs now t)
  = comms_trace_ _ t
    ++ [render (record_fields' commName workReq world_size ins outs now t)].
Proof.
  unfold recordComms, record_fields, render. cbn [comms_trace_].
  do 2 f_equal.
  destruct (_ || _), (bool_decide (curRoot_ _ t <> -1)), (_ || _);
    cbn [str foldr app render_fields]; unfold render_field; cbn [fst snd];
    rewrite ?string_app_assoc, ?string_app_nil_r; reflexivity.
Qed.

Lemma recordComms_seq_trace (cs : list (comms_call ScalarType DeviceType))
    (t : logger) :
  comms_trace_ _ (recordComms_seq' cs t)
  = comms_trace_ _ t ++ map render (seq_fields' cs t).
Proof.
  revert t. induction cs as [|c cs IH]; intros t; cbn [map seq_fields].
  - by rewrite app_nil_r.
  - unfold recordComms_seq in *. cbn [foldl]. rewrite IH.
    unfold recordComms_call at 1. rewrite recordComms_trace.
    by rewrite <- app_assoc.
Qed.

Lemma startTS_recordComms_call c (t : logger) :
  startTS _ (recordComms_call' c t) = Some (startTS_at _ (cc_now _ _ c) t).
Proof. reflexivity. Qed.

Lemma startTime_field c (t : logger) :
  field_value "startTime_ns" (call_fields' c t)
  = Some (pretty (cc_now _ _ c - startTS_at _ (cc_now _ _ c) t)).
Proof. reflexivity. Qed.

Lemma seq_fields_startTime cs (t : logger) ts :
  startTS _ t = Some ts ->
  Forall2 (fun c fs =>
             field_value "startTime_ns" fs
             = Some (pretty (cc_now _ _ c - ts)))
          cs (seq_fields' cs t).
Proof.
  revert t. induction cs as [|c cs IH]; intros t Hts; cbn [seq_fields].
  - constructor.
  - constructor.
    + rewrite startTime_field. unfold startTS_at. by rewrite Hts.
    + apply IH. rewrite startTS_recordComms_call. unfold startTS_at.
      by rewrite Hts.
Qed.

Lemma call_fields_no_optional c (t : logger) :
  curRoot_ _ t = -1 ->
  curInSplitSizes_ _ t = [] ->
  curOutSplitSizes_ _ t = [] ->
  no_optional_fields (call_fields' c t).
Proof.
  intros Hr Hi Ho. unfold no_optional_fields, call_fields, record_fields.
  rewrite Hr, Hi, Ho. cbn [length Nat.ltb Nat.leb orb].
  rewrite bool_decide_false by (intros H; by apply H).
  destruct (_ || _); repeat split; reflexivity.
Qed.

Lemma seq_fields_no_optional cs (t : logger) :
  curRoot_ _ t = -1 ->
  curInSplitSizes_ _ t = [] ->
  curOutSplitSizes_ _ t = [] ->
  Forall no_optional_fields (seq_fields' cs t).
Proof.
  revert t. induction cs as [|c cs IH]; intros t Hr Hi Ho; cbn [seq_fields].
  - constructor.
  - constructor; [by apply call_fields_no_optional|]. by apply IH.
Qed.

(** C9 (as amended): the [startTime_ns] field of every record is the
    number of nanoseconds between the first [recordComms] call of the
    process (which initialises the static [startTS]) and the call that
    emits the record; the first record carries 0. *)
Theorem startTime_ns_since_first_call c0 cs (t : logger) :
  startTS _ t = None ->
  comms_trace_ _ (recordComms_seq' (c0 :: cs) t)
  = comms_trace_ _ t ++ map render (seq_fields' (c0 :: cs) t)
  /\ Forall2 (fun c fs =>
               field_value "startTime_ns" fs
               = Some (pretty (cc_now _ _ c - cc_now _ _ c0)))
             (c0 :: cs) (seq_fields' (c0 :: cs) t).
Proof.
  intros Hts. split; [apply recordComms_seq_trace|].
  cbn [seq_fields]. constructor.
  - rewrite startTime_field. unfold startTS_at. by rewrite Hts.
  - apply seq_fields_startTime. rewrite startTS_recordComms_call.
    unfold startTS_at. by rewrite Hts.
Qed.

(** C10: [recordComms] leaves the root rank at -1 and both split-size
    lists empty, so none of the records emitted by later [recordComms]
    calls carries a [root], [in_split] or [out_split] field unless
    [recordOptionalInfo] is called again. *)
Theorem recordComms_resets_optional_info c cs (t : logger) :
  let t' := recordComms_call' c t in
  curRoot_ _ t' = -1
  /\ curInSplitSizes_ _ t' = []
  /\ curOutSplitSizes_ _ t' = []
  /\ comms_trace_ _ (recordComms_seq' cs t')
     = comms_trace_ _ t' ++ map render (seq_fields' cs t')
  /\ Forall no_optional_fields (seq_fields' cs t').
Proof.
  intros t'. repeat split; [apply recordComms_seq_trace|].
  by apply seq_fields_no_optional.
Qed.

End Facts.

Lemma startTime_ns_since_first_call_witness :
  startTS _ fresh_logger = None
  /\ Forall2 (fun c fs => field_value "startTime_ns" fs
                          = Some (pretty (cc_now _ _ c - 5)))
       [sample_call 5; sample_call 12]
       (seq_fields unit tt (fun _ => "Byte") unit tt (fun _ => "cpu")
          (fun _ => EmptyString) [sample_call 5; sample_call 12] fresh_logger).
Proof.
  split; [reflexivity|].
  apply (startTime_ns_since_first_call unit tt (fun _ => "Byte") unit tt
           (fun _ => "cpu") (fun _ => EmptyString)
           (sample_call 5) [sample_call 12] fresh_logger).
  reflexivity.
Defined.

(** C9 as stated fails: the very first record of a process that started
    at clock reading 0 and records its first operation at clock reading 5
    carries [startTime_ns] 0, not 5. *)
Lemma startTime_ns_not_since_process_start :
  let process_start := 0 in
  let now := 5 in
  let fs := call_fields unit tt (fun _ => "Byte") unit tt (fun _ => "cpu")
              (fun _ => EmptyString) (sample_call now) fresh_logger in
  comms_trace_ _ (recordComms_call unit tt (fun _ => "Byte") unit tt
                    (fun _ => "cpu") (fun _ => EmptyString)
                    (sample_call now) fresh_logger)
  = [render fs]
  /\ field_value "startTime_ns" fs = Some "0"
  /\ field_value "startTime_ns" fs <> Some (pretty (now - process_start)).
Proof. repeat split. vm_compute. discriminate. Qed.

End TracingFacts.
